(** * PASTE helper routines ([src/paste/helper.py]): a shallow embedding

    The numerical helpers of PASTE are embedded over the reals of the
    Standard Library, extended with the three special values a NumPy
    [float64] array can hold.  Arithmetic on finite values is exact (no
    rounding, no overflow, no signed zero); the special values follow
    IEEE-754, which is what NumPy does when it divides by zero or takes the
    logarithm of zero: it warns and stores [inf] or [nan], it does not
    raise.  Python exceptions are an explicit error result. *)

From Stdlib Require Import Reals Lra Lia ClassicalChoice ClassicalEpsilon.
From stdpp Require Import base option list gmap sets.

Open Scope R_scope.

(** ** Python outcomes *)

(** [SolverFailure] is the error kind the specification gives the two
    solvers, which are library code; nothing in [helper.py] raises it. *)
Inductive pyerr : Type :=
  | ValueError
  | AssertionError
  | IndexError
  | ZeroDivisionError
  | SolverFailure.

Inductive result (A : Type) : Type :=
  | Ok (a : A)
  | Raise (e : pyerr).
Arguments Ok {A} a.
Arguments Raise {A} e.

#[global] Instance result_ret : MRet result := fun A a => Ok a.
#[global] Instance result_bind : MBind result := fun A B f m =>
  match m with
  | Ok a => f a
  | Raise e => Raise e
  end.

(** ** Array entries *)

Inductive num : Type :=
  | Real (r : R)
  | PInf
  | NInf
  | NaN.

Definition is_zero (x : R) : bool := if Req_dec_T x 0 then true else false.
Definition is_neg (x : R) : bool := if Rlt_dec x 0 then true else false.

Definition num_neg (a : num) : num :=
  match a with
  | Real x => Real (- x)
  | PInf => NInf
  | NInf => PInf
  | NaN => NaN
  end.

Definition num_add (a b : num) : num :=
  match a, b with
  | NaN, _ | _, NaN => NaN
  | Real x, Real y => Real (x + y)
  | PInf, NInf | NInf, PInf => NaN
  | PInf, _ | _, PInf => PInf
  | NInf, _ | _, NInf => NInf
  end.

Definition num_sub (a b : num) : num := num_add a (num_neg b).

(** The sign of a product with an infinity; [0 * inf] is [nan]. *)
Definition inf_times (positive : bool) (y : R) : num :=
  if is_zero y then NaN
  else if xorb positive (is_neg y) then PInf else NInf.

Definition num_mul (a b : num) : num :=
  match a, b with
  | NaN, _ | _, NaN => NaN
  | Real x, Real y => Real (x * y)
  | PInf, Real y | Real y, PInf => inf_times true y
  | NInf, Real y | Real y, NInf => inf_times false y
  | PInf, PInf | NInf, NInf => PInf
  | PInf, NInf | NInf, PInf => NInf
  end.

(** NumPy's true division: [x / 0] is [nan] for [x = 0] and an infinity of
    the sign of [x] otherwise; nothing is raised. *)
Definition num_div (a b : num) : num :=
  match a, b with
  | NaN, _ | _, NaN => NaN
  | Real x, Real y =>
      if is_zero y then
        if is_zero x then NaN else if is_neg x then NInf else PInf
      else Real (x / y)
  | Real _, (PInf | NInf) => Real 0
  | (PInf | NInf), (PInf | NInf) => NaN
  | PInf, Real y => if is_neg y then NInf else PInf
  | NInf, Real y => if is_neg y then PInf else NInf
  end.

(** [np.log] *)
Definition num_log (a : num) : num :=
  match a with
  | Real x => if is_zero x then NInf else if is_neg x then NaN else Real (ln x)
  | PInf => PInf
  | NInf | NaN => NaN
  end.

(** [x ** 0.5] *)
Definition num_sqrt (a : num) : num :=
  match a with
  | Real x => if is_neg x then NaN else Real (sqrt x)
  | PInf => PInf
  | NInf | NaN => NaN
  end.

(** [np.isfinite] *)
Definition is_finite (a : num) : bool :=
  match a with
  | Real _ => true
  | _ => false
  end.

(** [a < b] on floats: every comparison with [nan] is false. *)
Definition num_ltb (a b : num) : bool :=
  match a, b with
  | NaN, _ | _, NaN => false
  | Real x, Real y => if Rlt_dec x y then true else false
  | NInf, (Real _ | PInf) => true
  | Real _, PInf => true
  | _, _ => false
  end.

Definition num_sum (l : list num) : num := foldr num_add (Real 0) l.

(** [np.dot] of two vectors, and [einsum('j,j->', u, v)]. *)
Definition dot (u v : list num) : num := num_sum (zip_with num_mul u v).

(** Python's builtin [min] over a sequence: the first element, replaced by
    each later one that compares smaller; an empty sequence raises. *)
Definition py_min (l : list num) : result num :=
  match l with
  | [] => Raise ValueError
  | x :: xs => Ok (foldl (fun m y => if num_ltb y m then y else m) x xs)
  end.

(** Python's [a / b] on two ints. *)
Definition py_truediv (a b : nat) : result num :=
  match b with
  | O => Raise ZeroDivisionError
  | _ => Ok (Real (INR a / INR b))
  end.

(** ** Two-dimensional arrays

    [shape1] is kept beside the rows, since an array with no row still has a
    number of columns. *)

Record ndarray : Type := NdArray { shape1 : nat; data : list (list num) }.

Definition shape0 (a : ndarray) : nat := length (data a).

Definition wf (a : ndarray) : Prop :=
  Forall (fun row => length row = shape1 a) (data a).

Definition entry (a : ndarray) (i j : nat) : option num :=
  data a !! i ≫= fun row => row !! j.

Definition of_reals (k : nat) (rows : list (list R)) : ndarray :=
  NdArray k (map (map Real) rows).

(** [a.sum(axis=0)] and [a.mean(axis=0)] *)
Definition sum_axis0 (a : ndarray) : list num :=
  foldr (zip_with num_add) (replicate (shape1 a) (Real 0)) (data a).

Definition mean_axis0 (a : ndarray) : list num :=
  map (fun s => num_div s (Real (INR (shape0 a)))) (sum_axis0 a).

(** [a.sum(axis=1, keepdims=True)], as the list of the row sums. *)
Definition sum_axis1 (a : ndarray) : list num := map num_sum (data a).

(** [a - v] with the vector [v] broadcast over the rows. *)
Definition sub_rowvec (a : ndarray) (v : list num) : ndarray :=
  NdArray (shape1 a) (map (fun row => zip_with num_sub row v) (data a)).

(** [a / c] for a scalar [c]. *)
Definition div_scalar (a : ndarray) (c : num) : ndarray :=
  NdArray (shape1 a) (map (map (fun x => num_div x c)) (data a)).

(** [a / s] with [s] of shape [(n, 1)] broadcast over the columns. *)
Definition div_colvec (a : ndarray) (s : list num) : ndarray :=
  NdArray (shape1 a)
    (zip_with (fun row c => map (fun x => num_div x c) row) (data a) s).

Definition map_array (f : num -> num) (a : ndarray) : ndarray :=
  NdArray (shape1 a) (map (map f) (data a)).

(** ** SciPy's distances *)

(** [minkowski_distance(u, v, p=2)] *)
Definition euclidean (u v : list num) : num :=
  num_sqrt (num_sum (zip_with (fun x y => let d := num_sub x y in num_mul d d) u v)).

(** [scipy.spatial.distance.pdist]: the distances of the pairs [i < j], row
    by row. *)
Fixpoint pdist (rows : list (list num)) : list num :=
  match rows with
  | [] => []
  | u :: rest => map (euclidean u) rest ++ pdist rest
  end.

(** [scipy.spatial.distance_matrix] *)
Definition distance_matrix (x y : ndarray) : result ndarray :=
  if decide (shape1 x = shape1 y) then
    Ok (NdArray (shape0 y)
          (map (fun u => map (fun v => euclidean u v) (data y)) (data x)))
  else Raise ValueError.

(** ** [norm_and_center_coordinates] *)

Definition norm_and_center_coordinates (X : ndarray) : result ndarray :=
  let centered := sub_rowvec X (mean_axis0 X) in
  c ← py_min (pdist (data X));
  Ok (div_scalar centered c).

(** ** Matrix helpers of [kl_divergence] *)

(** [a.T] *)
Definition transpose (a : ndarray) : ndarray :=
  NdArray (shape0 a)
    (map (fun j => map (fun row => nth j row NaN) (data a)) (seq 0 (shape1 a))).

(** [np.dot(a, b)] on two matrices; the inner dimensions must agree. *)
Definition np_dot (a b : ndarray) : result ndarray :=
  if decide (shape1 a = shape0 b) then
    Ok (NdArray (shape1 b)
          (map (fun u => map (fun col => dot u col) (data (transpose b))) (data a)))
  else Raise ValueError.

(** [np.matrix([s0, s1, ...])] and [reshape(v, (1, len(v)))]: one row. *)
Definition np_matrix (v : list num) : ndarray := NdArray (length v) [v].
Definition reshape_row (v : list num) : ndarray := NdArray (length v) [v].

(** [einsum('ij,ij->i', a, b)] *)
Definition einsum_ij_ij_i (a b : ndarray) : list num :=
  zip_with (fun u v => num_sum (zip_with num_mul u v)) (data a) (data b).

(** [c - m] with [c] of shape [(n, 1)] broadcast over the columns of [m]. *)
Definition sub_col_broadcast (c m : ndarray) : ndarray :=
  NdArray (shape1 m)
    (zip_with (fun crow row => map (fun x => num_sub (nth 0 crow NaN) x) row)
       (data c) (data m)).

(** [a[i]] for [i] in [range(a.shape[0])] *)
Definition row (a : ndarray) (i : nat) : list num := nth i (data a) [].

(** ** [kl_divergence] *)

Definition kl_divergence (X Y : ndarray) : result ndarray :=
  if decide (shape1 X = shape1 Y) then
    let X := div_colvec X (sum_axis1 X) in
    let Y := div_colvec Y (sum_axis1 Y) in
    let log_X := map_array num_log X in
    let log_Y := map_array num_log Y in
    let X_log_X :=
      np_matrix (map (fun i => dot (row X i) (row log_X i)) (seq 0 (shape0 X))) in
    P ← np_dot X (transpose log_Y);
    Ok (sub_col_broadcast (transpose X_log_X) P)
  else Raise AssertionError.

(** ** [kl_divergence_backend]

    [nx] is POT's NumPy backend: [nx.sum], [nx.log], [nx.einsum],
    [nx.reshape] and [nx.dot] are NumPy's, [nx.to_numpy] is the identity. *)

Definition kl_divergence_backend (X Y : ndarray) : result ndarray :=
  if decide (shape1 X = shape1 Y) then
    let X := div_colvec X (sum_axis1 X) in
    let Y := div_colvec Y (sum_axis1 Y) in
    let log_X := map_array num_log X in
    let log_Y := map_array num_log Y in
    let X_log_X := einsum_ij_ij_i X log_X in
    let X_log_X := reshape_row X_log_X in
    P ← np_dot X (transpose log_Y);
    Ok (sub_col_broadcast (transpose X_log_X) P)
  else Raise AssertionError.

(** ** [intersect] *)

Definition intersect `{Countable A} (lst1 lst2 : list A) : list A :=
  let temp : gset A := list_to_set lst2 in
  filter (fun value => value ∈ temp) lst1.

(** ** Index assignment on arrays *)

(** [np.zeros((n1, n2))] and [np.ones(n) / n] *)
Definition zeros (n1 n2 : nat) : ndarray :=
  NdArray n2 (replicate n1 (replicate n2 (Real 0))).

Definition uniform (n : nat) : list num :=
  map (fun x => num_div x (Real (INR n))) (replicate n (Real 1)).

(** Two index arrays are paired off after broadcasting. *)
Definition broadcast_index (r c : list nat) : result (list (nat * nat)) :=
  if decide (length r = length c) then Ok (zip r c)
  else if decide (length r = 1%nat) then Ok (map (fun j => (hd 0%nat r, j)) c)
  else if decide (length c = 1%nat) then Ok (map (fun i => (i, hd 0%nat c)) r)
  else Raise IndexError.

(** [a[i, j] = v] *)
Definition setitem (a : ndarray) (i j : nat) (v : num) : result ndarray :=
  if decide (i < shape0 a /\ j < shape1 a)%nat then
    Ok (NdArray (shape1 a) (alter (fun row => <[j := v]> row) i (data a)))
  else Raise IndexError.

Fixpoint setitem_all (a : ndarray) (ps : list (nat * nat)) (v : num)
  : result ndarray :=
  match ps with
  | [] => Ok a
  | (i, j) :: ps => a ← setitem a i j v; setitem_all a ps v
  end.

(** [a[row_ind, col_ind] = v] *)
Definition setitem_pairs (a : ndarray) (row_ind col_ind : list nat) (v : num)
  : result ndarray :=
  ps ← broadcast_index row_ind col_ind;
  setitem_all a ps v.

(** [a[:, mask] = v] and [a[mask, :] = v] for a list of booleans. *)
Definition setitem_col_mask (a : ndarray) (mask : list bool) (v : num)
  : result ndarray :=
  if decide (length mask = shape1 a) then
    Ok (NdArray (shape1 a)
          (map (fun row => zip_with (fun (m : bool) x => if m then v else x) mask row)
             (data a)))
  else Raise IndexError.

Definition setitem_row_mask (a : ndarray) (mask : list bool) (v : num)
  : result ndarray :=
  if decide (length mask = shape0 a) then
    Ok (NdArray (shape1 a)
          (zip_with (fun (m : bool) row => if m then map (fun _ => v) row else row)
             mask (data a)))
  else Raise IndexError.

(** [[(j not in ind) for j in range(n)]] *)
Definition not_in_mask (ind : list nat) (n : nat) : list bool :=
  map (fun j => bool_decide (j ∉ ind)) (seq 0 n).

(** ** Sparse matrices

    [scipy.sparse.csr_matrix(dense)] stores the entries that are not zero;
    a zero distance is no edge of the bipartite graph. *)

Record csr : Type := Csr { csr_shape : nat * nat; csr_entries : list (nat * nat * num) }.

Definition stored (x : num) : bool :=
  match x with
  | Real r => negb (is_zero r)
  | _ => true
  end.

Definition csr_matrix (a : ndarray) : csr :=
  Csr (shape0 a, shape1 a)
    (concat (imap (fun i row =>
               omap (fun '(j, x) => if stored x then Some (i, j, x) else None)
                 (imap pair row))
             (data a))).

(** ** [match_spots_using_spatial_heuristic]

    The two solvers are library code (POT's [ot.emd], SciPy's
    [min_weight_full_bipartite_matching]); the function is embedded over
    any pair of them. *)

Section SpatialMatcher.

Variable ot_emd : list num -> list num -> ndarray -> result ndarray.
Variable min_weight_full_bipartite_matching : csr -> result (list nat * list nat).

Definition match_spots_using_spatial_heuristic
    (X Y : ndarray) (use_ot : bool) : result ndarray :=
  let n1 := shape0 X in
  let n2 := shape0 Y in
  X ← norm_and_center_coordinates X;
  Y ← norm_and_center_coordinates Y;
  dist ← distance_matrix X Y;
  if use_ot then ot_emd (uniform n1) (uniform n2) dist
  else
    m ← min_weight_full_bipartite_matching (csr_matrix dist);
    let row_ind := m.1 in
    let col_ind := m.2 in
    let pi := zeros n1 n2 in
    w ← py_truediv 1 (Nat.max n1 n2);
    pi ← setitem_pairs pi row_ind col_ind w;
    if (n1 <? n2)%nat then
      u ← py_truediv 1 (n1 * n2);
      setitem_col_mask pi (not_in_mask col_ind n2) u
    else if (n2 <? n1)%nat then
      u ← py_truediv 1 (n1 * n2);
      setitem_row_mask pi (not_in_mask row_ind n1) u
    else Ok pi.

End SpatialMatcher.

(** The cost matrix the function hands to either solver: its first three
    lines. *)
Definition normalized_cost (X Y : ndarray) : result ndarray :=
  X ← norm_and_center_coordinates X;
  Y ← norm_and_center_coordinates Y;
  distance_matrix X Y.

(** What SciPy documents of the matching it returns: [min n1 n2] pairs, no
    row and no column twice, every index in range. *)
Definition full_matching (n1 n2 : nat) (row_ind col_ind : list nat) : Prop :=
  length row_ind = Nat.min n1 n2 /\ length col_ind = Nat.min n1 n2 /\
  NoDup row_ind /\ NoDup col_ind /\
  Forall (fun i => (i < n1)%nat) row_ind /\ Forall (fun j => (j < n2)%nat) col_ind.

(** ** [to_dense_array] *)

(** The values a sparse matrix stores at the position [(i, j)]. *)
Definition value_at (i j : nat) : nat * nat * num -> option num :=
  fun '(i', j', x) => if decide (i' = i /\ j' = j) then Some x else None.

(** [s.toarray()]: the dense array of the shape of [s]; values stored at the
    same position are summed, a position with no value is zero. *)
Definition toarray (s : csr) : ndarray :=
  NdArray (csr_shape s).2
    (map (fun i =>
            map (fun j => num_sum (omap (value_at i j) (csr_entries s)))
              (seq 0 (csr_shape s).2))
       (seq 0 (csr_shape s).1)).

(** What the function is applied to: a SciPy sparse matrix, or an array
    that [np.array] copies. *)
Inductive array_like : Type :=
  | Sparse (s : csr)
  | Dense (a : ndarray).

Definition to_dense_array (X : array_like) : ndarray :=
  match X with
  | Sparse s => toarray s
  | Dense a => a
  end.

(** ** Reference quantities over the reals

    What the properties below compare the embedded code with: sums, row
    normalisation and the Kullback-Leibler divergence written as the
    specification writes them. *)

Definition Rsum (l : list R) : R := foldr Rplus 0 l.

(** A row divided by its sum. *)
Definition normalize (row : list R) : list R := map (fun x => x / Rsum row) row.

(** [KL(p || q)], the sum over the features of [p_f * (log p_f - log q_f)]. *)
Definition kl_rows (p q : list R) : R :=
  Rsum (zip_with (fun a b => a * (ln a - ln b)) p q).

(** The centroid, the centred rows, the Euclidean distance and the least
    pairwise distance of a point set given by real coordinates; [affine a t]
    maps every point [x] to [a * x + t]. *)

Definition Rcolsum (d : nat) (rows : list (list R)) : list R :=
  foldr (zip_with Rplus) (replicate d 0) rows.

Definition centroid (d : nat) (rows : list (list R)) : list R :=
  map (fun s => s / INR (length rows)) (Rcolsum d rows).

Definition centered (d : nat) (rows : list (list R)) : list (list R) :=
  map (fun row => zip_with Rminus row (centroid d rows)) rows.

Definition Rdist (u v : list R) : R :=
  sqrt (Rsum (zip_with (fun x y => (x - y) * (x - y)) u v)).

Fixpoint Rpdist (rows : list (list R)) : list R :=
  match rows with
  | [] => []
  | u :: rest => map (Rdist u) rest ++ Rpdist rest
  end.

Definition min_pairwise_distance (rows : list (list R)) : R :=
  match Rpdist rows with
  | [] => 0
  | x :: xs => foldl Rmin x xs
  end.

Definition normalized (d : nat) (rows : list (list R)) : list (list R) :=
  map (map (fun c => c / min_pairwise_distance rows)) (centered d rows).

Definition affine_row (a : R) (t row : list R) : list R :=
  zip_with (fun x tj => a * x + tj) row t.

Definition affine (a : R) (t : list R) (rows : list (list R)) : list (list R) :=
  map (affine_row a t) rows.

(** The entry [(i, j)] of the coupling assembled from a matching
    [(row_ind, col_ind)], in closed form. *)
Definition coupling_value (n1 n2 : nat) (r c : list nat) (i j : nat) : R :=
  if decide ((n1 < n2)%nat /\ j ∉ c) then 1 / (INR n1 * INR n2)
  else if decide ((n2 < n1)%nat /\ i ∉ r) then 1 / (INR n1 * INR n2)
  else if decide ((i, j) ∈ zip r c) then 1 / INR (Nat.max n1 n2)
  else 0.

(** ** Couplings and the transport problem *)

(** Entry [(i, j)] of a real matrix, and the sum of [f 0 .. f (n-1)]. *)
Definition Rentry (P : list (list R)) (i j : nat) : R := nth j (nth i P []) 0.

Definition Rsum_upto (n : nat) (f : nat -> R) : R := Rsum (map f (seq 0 n)).

(** [P] is a coupling of the marginals [a] and [b]: its shape is
    [(len a, len b)], its entries are not negative, its rows sum to [a] and
    its columns to [b]. *)
Definition is_coupling (a b : list R) (P : list (list R)) : Prop :=
  length P = length a /\
  Forall (fun row => length row = length b) P /\
  (forall i j, (i < length a)%nat -> (j < length b)%nat -> 0 <= Rentry P i j) /\
  (forall i, (i < length a)%nat ->
     Rsum_upto (length b) (fun j => Rentry P i j) = nth i a 0) /\
  (forall j, (j < length b)%nat ->
     Rsum_upto (length a) (fun i => Rentry P i j) = nth j b 0).

(** The total transport cost, the sum of [P[i,j] * D[i,j]]. *)
Definition transport_cost (n1 n2 : nat) (D P : list (list R)) : R :=
  Rsum_upto n1 (fun i => Rsum_upto n2 (fun j => Rentry P i j * Rentry D i j)).

Definition optimal_coupling (a b : list R) (D P : list (list R)) : Prop :=
  is_coupling a b P /\
  forall Q, is_coupling a b Q ->
    transport_cost (length a) (length b) D P
    <= transport_cost (length a) (length b) D Q.

(** A cost matrix of shape [(n1, n2)]: no entry is negative. *)
Definition cost_matrix (n1 n2 : nat) (D : list (list R)) : Prop :=
  length D = n1 /\
  Forall (fun row => length row = n2) D /\
  Forall (Forall (fun x => 0 <= x)) D.





(** A solver that meets the contract and never fails where the contract
    applies, for showing that the contract can be met: it returns a coupling
    of least cost whenever the problem put to it has one, and reports a
    failure otherwise. *)
Definition reference_emd (a b : list num) (D : ndarray) : result ndarray :=
  match excluded_middle_informative
          (exists P ar br Dr,
              a = map Real ar /\ b = map Real br /\ data D = map (map Real) Dr /\
              optimal_coupling ar br Dr P)
  with
  | left H => Ok (of_reals (shape1 D) (proj1_sig (constructive_indefinite_description _ H)))
  | right _ => Raise SolverFailure
  end.

(** The matrix of shape [(n1, n2)] with the entries [f i j]. *)
Definition Rmat (n1 n2 : nat) (f : nat -> nat -> R) : list (list R) :=
  map (fun i => map (fun j => f i j) (seq 0 n2)) (seq 0 n1).

(** The cost matrix of two point sets of real coordinates: the distances
    between their normalised points. *)
Definition normalized_distances (d : nat) (Xr Yr : list (list R)) : list (list R) :=
  map (fun u => map (fun v => Rdist u v) (normalized d Yr)) (normalized d Xr).

(** The rows of an array, each multiplied by its own factor. *)
Definition scale_rows (cs : list R) (rows : list (list R)) : list (list R) :=
  zip_with (fun c row => map (fun x => c * x) row) cs rows.

(** The entries [csr_matrix] stores of the row [i], its columns counted
    from [o]. *)
Definition row_entries (i : nat) (o : nat) (row : list num) : list (nat * nat * num) :=
  omap (fun '(j, x) => if stored x then Some (i, j, x) else None)
       (imap (fun k x => ((o + k)%nat, x)) row).

(** * Properties *)

(** ** Exact arithmetic on finite entries *)

Lemma is_zero_true x : x = 0 -> is_zero x = true.
Proof. intros ->. unfold is_zero. destruct (Req_dec_T 0 0); congruence. Qed.

Lemma is_zero_false x : x <> 0 -> is_zero x = false.
Proof. intros Hx. unfold is_zero. destruct (Req_dec_T x 0); congruence. Qed.

Lemma is_neg_true x : x < 0 -> is_neg x = true.
Proof. intros Hx. unfold is_neg. destruct (Rlt_dec x 0); [done | lra]. Qed.

Lemma is_neg_false x : 0 <= x -> is_neg x = false.
Proof. intros Hx. unfold is_neg. destruct (Rlt_dec x 0); [lra | done]. Qed.

Lemma num_div_real x y : y <> 0 -> num_div (Real x) (Real y) = Real (x / y).
Proof. intros Hy. simpl. by rewrite is_zero_false. Qed.

Lemma num_log_real x : 0 < x -> num_log (Real x) = Real (ln x).
Proof.
  intros Hx. simpl. rewrite is_zero_false by lra. by rewrite is_neg_false by lra.
Qed.

Lemma num_sqrt_real x : 0 <= x -> num_sqrt (Real x) = Real (sqrt x).
Proof. intros Hx. simpl. by rewrite is_neg_false. Qed.

Lemma num_sum_real l : num_sum (map Real l) = Real (Rsum l).
Proof.
  induction l as [|x l IH]; [done|].
  unfold num_sum in *. simpl. by rewrite IH.
Qed.

Lemma zip_with_real (f : num -> num -> num) (g : R -> R -> R) u v :
  (forall x y, f (Real x) (Real y) = Real (g x y)) ->
  zip_with f (map Real u) (map Real v) = map Real (zip_with g u v).
Proof.
  intros Hfg. revert v.
  induction u as [|x u IH]; intros [|y v]; simpl; [done..|].
  by rewrite Hfg, IH.
Qed.

Lemma dot_real u v :
  dot (map Real u) (map Real v) = Real (Rsum (zip_with Rmult u v)).
Proof.
  unfold dot. rewrite (zip_with_real _ Rmult) by done. apply num_sum_real.
Qed.

Lemma Rsum_pos l : l <> [] -> Forall (fun x => 0 < x) l -> 0 < Rsum l.
Proof.
  intros Hne Hpos. destruct Hpos as [|x l Hx Hl]; [done|].
  clear Hne. simpl.
  assert (0 <= Rsum l); [|lra].
  induction Hl as [|y l Hy Hl IH]; simpl; lra.
Qed.

Lemma Rsum_zip_minus (f g : R -> R -> R) u v :
  Rsum (zip_with f u v) - Rsum (zip_with g u v)
  = Rsum (zip_with (fun x y => f x y - g x y) u v).
Proof.
  revert v. induction u as [|x u IH]; intros [|y v]; simpl; try lra.
  specialize (IH v). lra.
Qed.

(** ** [kl_divergence] and [kl_divergence_backend] *)

Lemma div_colvec_real k (rows : list (list R)) :
  Forall (Forall (fun x => 0 < x)) rows ->
  div_colvec (of_reals k rows) (sum_axis1 (of_reals k rows))
  = of_reals k (map normalize rows).
Proof.
  intros Hpos. unfold div_colvec, sum_axis1, of_reals. simpl. f_equal.
  induction Hpos as [|row rows Hrow _ IH]; [done|].
  simpl. rewrite IH. f_equal.
  rewrite num_sum_real. unfold normalize. rewrite !map_map.
  apply map_ext_in. intros x Hx. apply num_div_real.
  assert (0 < Rsum row); [|lra].
  apply Rsum_pos; [|done]. intros ->. inversion Hx.
Qed.

Lemma normalize_pos row :
  Forall (fun x => 0 < x) row -> Forall (fun x => 0 < x) (normalize row).
Proof.
  intros Hpos. unfold normalize. apply Forall_map.
  apply Forall_forall. intros x Hx.
  assert (0 < x) by (by eapply Forall_forall in Hpos).
  assert (0 < Rsum row).
  { apply Rsum_pos; [|done]. intros ->. inversion Hx. }
  by apply Rdiv_lt_0_compat.
Qed.

Lemma map_log_real k (rows : list (list R)) :
  Forall (Forall (fun x => 0 < x)) rows ->
  map_array num_log (of_reals k rows) = of_reals k (map (map ln) rows).
Proof.
  intros Hpos. unfold map_array, of_reals. simpl. f_equal.
  induction Hpos as [|row rows Hrow _ IH]; [done|].
  simpl. rewrite IH. f_equal.
  rewrite !map_map. apply map_ext_in. intros x Hx.
  apply num_log_real. rewrite Forall_forall in Hrow. apply Hrow.
  by apply list_elem_of_In.
Qed.

Lemma transpose_row v : data (transpose (np_matrix v)) = map (fun x => [x]) v.
Proof.
  unfold transpose, np_matrix. simpl.
  apply list_eq. intros i. rewrite !list_lookup_fmap.
  destruct (decide (i < length v)%nat) as [Hi|Hi].
  - rewrite lookup_seq_lt by done. simpl.
    destruct (lookup_lt_is_Some_2 v i Hi) as [x Hx]. rewrite Hx. simpl.
    do 2 f_equal. by apply nth_lookup_Some with (d := NaN) in Hx.
  - rewrite lookup_seq_ge by lia. rewrite lookup_ge_None_2 by lia. done.
Qed.

Lemma transpose_transpose a : wf a -> data (transpose (transpose a)) = data a.
Proof.
  intros Hwf. unfold transpose at 1. simpl.
  unfold shape0. apply list_eq. intros i. rewrite list_lookup_fmap.
  destruct (decide (i < length (data a))%nat) as [Hi|Hi].
  - rewrite lookup_seq_lt by done. simpl.
    destruct (lookup_lt_is_Some_2 _ i Hi) as [row Hrow]. rewrite Hrow. f_equal.
    rewrite map_map.
    assert (length row = shape1 a) as Hlen.
    { unfold wf in Hwf. rewrite Forall_lookup in Hwf. by eapply Hwf. }
    apply list_eq. intros j. rewrite list_lookup_fmap.
    destruct (decide (j < shape1 a)%nat) as [Hj|Hj].
    + rewrite lookup_seq_lt by done. simpl.
      erewrite nth_lookup_Some; last first.
      { rewrite list_lookup_fmap, Hrow. done. }
      destruct (lookup_lt_is_Some_2 row j ltac:(lia)) as [x Hx].
      rewrite Hx. f_equal. by apply nth_lookup_Some.
    + rewrite lookup_seq_ge by lia. by rewrite lookup_ge_None_2 by lia.
  - rewrite lookup_seq_ge by lia. by rewrite lookup_ge_None_2 by lia.
Qed.

Lemma wf_of_reals k rows :
  Forall (fun row => length row = k) rows -> wf (of_reals k rows).
Proof.
  intros H. unfold wf, of_reals. simpl. apply Forall_map.
  eapply Forall_impl; [exact H|]. intros row Hrow. simpl. by rewrite length_map.
Qed.

Lemma normalize_length row : length (normalize row) = length row.
Proof. unfold normalize. by rewrite length_map. Qed.

Lemma np_dot_transpose a b :
  wf b -> shape1 a = shape1 b ->
  np_dot a (transpose b)
  = Ok (NdArray (shape0 b) (map (fun u => map (fun v => dot u v) (data b)) (data a))).
Proof.
  intros Hwf Hk. unfold np_dot. rewrite decide_True; last first.
  { unfold transpose, shape0. simpl. by rewrite length_map, length_seq. }
  by rewrite transpose_transpose.
Qed.

Lemma zip_with_self_l (f : R -> R) (p q : list R) :
  length p = length q ->
  zip_with Rmult p (map f p) = zip_with (fun a (b : R) => a * f a) p q.
Proof.
  revert q. induction p as [|a p IH]; intros [|b q] Hpq; simpl in *; try done.
  f_equal. apply IH. lia.
Qed.

Lemma kl_rows_split p q :
  length p = length q ->
  Rsum (zip_with Rmult p (map ln p)) - Rsum (zip_with Rmult p (map ln q))
  = kl_rows p q.
Proof.
  intros Hpq. unfold kl_rows.
  rewrite (zip_with_self_l ln p q) by done.
  rewrite zip_with_fmap_r.
  rewrite (Rsum_zip_minus (fun a b => a * ln a) (fun a b => a * ln b)).
  f_equal. apply zip_with_ext; [|done..]. intros; lra.
Qed.

Lemma rows_zip_with {A} (f : list num -> list num -> A) (a b : ndarray) :
  shape0 a = shape0 b ->
  map (fun i => f (row a i) (row b i)) (seq 0 (shape0 a))
  = zip_with f (data a) (data b).
Proof.
  unfold row, shape0. generalize (data a) (data b). clear a b.
  intros l. induction l as [|u l IH]; intros [|v k] Hlen; simpl in *; try done.
  f_equal. rewrite <- seq_shift, map_map. apply IH. lia.
Qed.

Lemma kl_entropy_terms X :
  let Xn := div_colvec X (sum_axis1 X) in
  map (fun i => dot (row Xn i) (row (map_array num_log Xn) i)) (seq 0 (shape0 Xn))
  = einsum_ij_ij_i Xn (map_array num_log Xn).
Proof.
  intros Xn. unfold einsum_ij_ij_i.
  rewrite (rows_zip_with dot); [done|].
  unfold shape0, map_array. simpl. by rewrite length_map.
Qed.

(** C6: for [X] of shape [(n, k)] and [Y] of shape [(m, k)] with strictly
    positive entries, [kl_divergence] returns the [(n, m)] array whose entry
    [(i, j)] is the sum over the features [f] of
    [Xn_i[f] * (log Xn_i[f] - log Yn_j[f])], where [Xn], [Yn] are [X], [Y]
    with every row divided by its sum. *)
Theorem kl_divergence_formula k (Xr Yr : list (list R)) :
  Forall (fun row => length row = k) Xr ->
  Forall (fun row => length row = k) Yr ->
  Forall (Forall (fun x => 0 < x)) Xr ->
  Forall (Forall (fun y => 0 < y)) Yr ->
  kl_divergence (of_reals k Xr) (of_reals k Yr)
  = Ok (of_reals (length Yr)
          (map (fun xi => map (fun yj => kl_rows (normalize xi) (normalize yj)) Yr) Xr)).
Proof.
  intros HX HY PX PY. unfold kl_divergence.
  rewrite decide_True by done.
  rewrite kl_entropy_terms. unfold einsum_ij_ij_i. fold (dot).
  rewrite !div_colvec_real by done.
  assert (Forall (Forall (fun x => 0 < x)) (map normalize Xr)) as PX'.
  { apply Forall_map. eapply Forall_impl; [exact PX|]. apply normalize_pos. }
  assert (Forall (Forall (fun x => 0 < x)) (map normalize Yr)) as PY'.
  { apply Forall_map. eapply Forall_impl; [exact PY|]. apply normalize_pos. }
  rewrite !map_log_real by done.
  rewrite np_dot_transpose; [|..|done]; last first.
  { apply wf_of_reals. rewrite !Forall_map. eapply Forall_impl; [exact HY|].
    intros row Hrow. simpl. by rewrite length_map, normalize_length. }
  cbn [mbind result_bind]. f_equal.
  unfold sub_col_broadcast. rewrite transpose_row.
  unfold of_reals, shape0. cbn [data shape1].
  rewrite !length_map. f_equal.
  rewrite !map_map.
  clear PX' PY'.
  induction Xr as [|xi Xr IH]; [done|].
  inversion HX; subst. inversion PX; subst.
  cbn [map zip_with]. f_equal; [|by apply IH].
  rewrite !map_map. apply map_ext_in. intros yj Hyj. cbn [nth].
  rewrite <- (map_map ln Real (normalize xi)).
  change (fun u v => num_sum (zip_with num_mul u v)) with dot.
  rewrite !dot_real. cbn [num_sub num_neg num_add]. f_equal.
  rewrite <- kl_rows_split; [lra|].
  rewrite !normalize_length. symmetry.
  rewrite Forall_forall in HY. apply HY. by apply list_elem_of_In.
Qed.

Lemma kl_divergence_formula_witness :
  kl_divergence (of_reals 2 [[1; 1]]) (of_reals 2 [[1; 3]])
  = Ok (of_reals 1 [[kl_rows (normalize [1; 1]) (normalize [1; 3])]]).
Proof.
  apply (kl_divergence_formula 2 [[1; 1]] [[1; 3]]); repeat constructor; lra.
Defined.

Lemma kl_divergence_backend_unfold X Y :
  kl_divergence_backend X Y = kl_divergence X Y.
Proof.
  unfold kl_divergence_backend, kl_divergence.
  destruct (decide (shape1 X = shape1 Y)); [|done].
  by rewrite kl_entropy_terms.
Qed.

(** C7: in exact arithmetic [kl_divergence] and [kl_divergence_backend]
    return the same outcome on every pair of arrays, valid inputs (equal
    feature dimension, strictly positive entries) included: the same array,
    or the same error. *)
Theorem kl_divergence_backend_agrees X Y :
  kl_divergence X Y = kl_divergence_backend X Y.
Proof. symmetry. apply kl_divergence_backend_unfold. Qed.

Lemma kl_divergence_returns X Y :
  shape1 X = shape1 Y -> exists D, kl_divergence X Y = Ok D.
Proof.
  intros Hk. unfold kl_divergence. rewrite decide_True by done.
  unfold np_dot. rewrite decide_True; [by eexists|].
  unfold transpose, shape0. simpl. by rewrite length_map, length_seq.
Qed.

(** C8: [kl_divergence], and [kl_divergence_backend] alike, fails its
    assertion exactly when the feature dimensions [X.shape[1]] and
    [Y.shape[1]] differ; when they agree the error is not raised. *)
Theorem kl_divergence_assertion X Y :
  (kl_divergence X Y = Raise AssertionError <-> shape1 X <> shape1 Y) /\
  (kl_divergence_backend X Y = Raise AssertionError <-> shape1 X <> shape1 Y).
Proof.
  rewrite kl_divergence_backend_unfold.
  assert (kl_divergence X Y = Raise AssertionError <-> shape1 X <> shape1 Y); [|done].
  split.
  - intros Herr Hk. destruct (kl_divergence_returns X Y Hk) as [D HD]. congruence.
  - intros Hk. unfold kl_divergence. by rewrite decide_False.
Qed.

(** ** [intersect] *)

Lemma intersect_filter `{Countable A} (lst1 lst2 : list A) :
  intersect lst1 lst2 = filter (fun v => v ∈ lst2) lst1.
Proof.
  unfold intersect. apply list_filter_iff. intros x. by rewrite elem_of_list_to_set.
Qed.

(** C9: [intersect lst1 lst2] is [lst1] filtered by membership in [lst2]:
    the elements of [lst1] that occur in [lst2], in the order of [lst1] and
    as often as [lst1] has them; and [intersect [1,2,2,3] [2,3,4]] is
    [[2,2,3]]. *)
Theorem intersect_spec :
  (forall `{Countable A} (lst1 lst2 : list A),
      intersect lst1 lst2 = filter (fun v => v ∈ lst2) lst1) /\
  intersect [1; 2; 2; 3]%Z [2; 3; 4]%Z = [2; 2; 3]%Z.
Proof.
  split; [intros; apply intersect_filter|]. vm_compute. reflexivity.
Qed.

(** ** [norm_and_center_coordinates] *)

Lemma Rsum_squares_nonneg u v :
  0 <= Rsum (zip_with (fun x y => (x - y) * (x - y)) u v).
Proof.
  unfold Rsum. revert v. induction u as [|x u IH]; intros [|y v]; simpl; try lra.
  specialize (IH v). revert IH. generalize (foldr Rplus 0 (zip_with (fun x y : R => (x - y) * (x - y)) u v)). intros S HS.
  pose proof (Rle_0_sqr (x - y)) as Hsq. unfold Rsqr in Hsq. lra.
Qed.

Lemma euclidean_real u v : euclidean (map Real u) (map Real v) = Real (Rdist u v).
Proof.
  unfold euclidean, Rdist.
  rewrite (zip_with_real _ (fun x y => (x - y) * (x - y))).
  - rewrite num_sum_real. apply num_sqrt_real, Rsum_squares_nonneg.
  - intros x y. simpl. f_equal. 
Qed.

Lemma pdist_real rows : pdist (map (map Real) rows) = map Real (Rpdist rows).
Proof.
  induction rows as [|u rows IH]; [done|].
  simpl. rewrite IH, map_app, !map_map. f_equal.
  apply map_ext. intros v. apply euclidean_real.
Qed.

Lemma py_min_fold x xs :
  foldl (fun m y => if num_ltb y m then y else m) (Real x) (map Real xs)
  = Real (foldl Rmin x xs).
Proof.
  revert x. induction xs as [|y xs IH]; intros x; [done|].
  simpl. destruct (Rlt_dec y x) as [Hlt|Hge].
  - rewrite IH. do 2 f_equal. symmetry. apply Rmin_right. lra.
  - rewrite IH. do 2 f_equal. symmetry. apply Rmin_left. lra.
Qed.

Lemma py_min_real x xs :
  py_min (map Real (x :: xs)) = Ok (Real (foldl Rmin x xs)).
Proof. simpl. by rewrite py_min_fold. Qed.

Lemma sum_axis0_real d rows :
  sum_axis0 (of_reals d rows) = map Real (Rcolsum d rows).
Proof.
  unfold sum_axis0, of_reals, Rcolsum. simpl.
  induction rows as [|u rows IH]; simpl.
  - induction d; simpl; [done|]. by f_equal.
  - rewrite IH. by apply zip_with_real.
Qed.

Lemma INR_pos_length {A} (l : list A) : l <> [] -> INR (length l) <> 0.
Proof.
  intros Hl. apply not_0_INR. destruct l; simpl; [done|lia].
Qed.

Lemma mean_axis0_real d rows :
  rows <> [] -> mean_axis0 (of_reals d rows) = map Real (centroid d rows).
Proof.
  intros Hne. unfold mean_axis0, centroid. rewrite sum_axis0_real, !map_map.
  apply map_ext. intros s. unfold shape0, of_reals. simpl. rewrite length_map.
  apply num_div_real. by apply INR_pos_length.
Qed.

Lemma sub_rowvec_real d rows :
  rows <> [] ->
  sub_rowvec (of_reals d rows) (mean_axis0 (of_reals d rows))
  = of_reals d (centered d rows).
Proof.
  intros Hne. rewrite mean_axis0_real by done.
  unfold sub_rowvec, of_reals, centered. simpl. f_equal.
  rewrite !map_map. apply map_ext. intros row.
  apply zip_with_real. intros x y. simpl. f_equal.
Qed.

Lemma Rpdist_two u v rest :
  Rpdist (u :: v :: rest) = Rdist u v :: (map (Rdist u) rest ++ Rpdist (v :: rest)).
Proof. done. Qed.

Lemma norm_real d rows :
  (2 <= length rows)%nat ->
  norm_and_center_coordinates (of_reals d rows)
  = Ok (div_scalar (of_reals d (centered d rows))
          (Real (min_pairwise_distance rows))).
Proof.
  intros Hn. unfold norm_and_center_coordinates.
  rewrite sub_rowvec_real by (intros ->; simpl in Hn; lia).
  change (data (of_reals d rows)) with (map (map Real) rows).
  rewrite pdist_real. unfold min_pairwise_distance.
  destruct rows as [|u [|v rest]]; simpl in Hn; try lia.
  rewrite Rpdist_two. by rewrite py_min_real.
Qed.

Lemma norm_raises X :
  (exists e, norm_and_center_coordinates X = Raise e) <-> (shape0 X < 2)%nat.
Proof.
  unfold norm_and_center_coordinates, shape0.
  destruct (data X) as [|u [|v rest]]; simpl.
  - split; [lia|]. by eexists.
  - split; [lia|]. by eexists.
  - split; [|lia]. by intros [e He].
Qed.

Lemma Rcolsum_length d rows :
  Forall (fun row => length row = d) rows -> length (Rcolsum d rows) = d.
Proof.
  intros Hwf. unfold Rcolsum. induction Hwf as [|row rows Hrow _ IH]; simpl.
  - by rewrite length_replicate.
  - rewrite length_zip_with. lia.
Qed.

Lemma Rcolsum_scale k d rows :
  Rcolsum d (map (map (fun c => c * k)) rows) = map (fun s => s * k) (Rcolsum d rows).
Proof.
  unfold Rcolsum. induction rows as [|row rows IH]; simpl.
  - induction d as [|d IHd]; simpl; [done|]. rewrite <- IHd. f_equal. lra.
  - rewrite IH. generalize (foldr (zip_with Rplus) (replicate d 0) rows). intros S.
    revert S. induction row as [|x row IHr]; intros [|s S]; simpl; try done.
    f_equal; [lra|]. apply IHr.
Qed.

Lemma Rcolsum_div k d rows :
  Rcolsum d (map (map (fun c => c / k)) rows) = map (fun s => s / k) (Rcolsum d rows).
Proof. unfold Rdiv. apply Rcolsum_scale. Qed.

Lemma zip_with_shift (row S mu : list R) (n : R) :
  length row = length mu -> length S = length mu ->
  zip_with Rplus (zip_with Rminus row mu) (zip_with (fun s m => s - n * m) S mu)
  = zip_with (fun s m => s - (1 + n) * m) (zip_with Rplus row S) mu.
Proof.
  revert row S. induction mu as [|m mu IH]; intros [|x row] [|s S] Hr HS;
    simpl in *; try done.
  f_equal; [lra|]. apply IH; lia.
Qed.

Lemma Rcolsum_shift d rows mu :
  Forall (fun row => length row = d) rows -> length mu = d ->
  Rcolsum d (map (fun row => zip_with Rminus row mu) rows)
  = zip_with (fun s m => s - INR (length rows) * m) (Rcolsum d rows) mu.
Proof.
  intros Hwf Hmu. induction Hwf as [|row rows Hrow Hwf IH].
  - unfold Rcolsum. simpl. subst d. clear.
    induction mu as [|m mu IH]; simpl; [done|]. rewrite <- IH. f_equal. lra.
  - change (Rcolsum d (map (fun row => zip_with Rminus row mu) (row :: rows)))
      with (zip_with Rplus (zip_with Rminus row mu)
              (Rcolsum d (map (fun row => zip_with Rminus row mu) rows))).
    rewrite IH. 
    change (Rcolsum d (row :: rows)) with (zip_with Rplus row (Rcolsum d rows)).
    rewrite zip_with_shift.
    + apply zip_with_ext; [|done..]. intros s m.
      change (length (row :: rows)) with (S (length rows)). rewrite S_INR. lra.
    + lia.
    + rewrite Rcolsum_length by done. lia.
Qed.

Lemma Rcolsum_centered d rows :
  rows <> [] -> Forall (fun row => length row = d) rows ->
  Rcolsum d (centered d rows) = replicate d 0.
Proof.
  intros Hne Hwf. unfold centered. rewrite Rcolsum_shift; [|done|]; last first.
  { unfold centroid. by rewrite length_map, Rcolsum_length. }
  unfold centroid. rewrite zip_with_fmap_r.
  pose proof (Rcolsum_length d rows Hwf) as Hlen. revert Hlen.
  generalize (Rcolsum d rows). intros S <-.
  pose proof (INR_pos_length rows Hne) as Hn. clear Hwf.
  induction S as [|s S IH]; simpl; [done|]. rewrite IH. f_equal. by field.
Qed.

Lemma sum_squares_zero u v :
  length u = length v ->
  Rsum (zip_with (fun x y => (x - y) * (x - y)) u v) = 0 -> u = v.
Proof.
  revert v. induction u as [|x u IH]; intros [|y v] Hlen Hsum; simpl in *; try done.
  pose proof (Rsum_squares_nonneg u v) as Hrest.
  pose proof (Rle_0_sqr (x - y)) as Hsq. unfold Rsqr in Hsq.
  fold (Rsum (zip_with (fun x y => (x - y) * (x - y)) u v)) in Hsum.
  assert ((x - y) * (x - y) = 0) as Hxy by lra.
  assert (Rsum (zip_with (fun x y => (x - y) * (x - y)) u v) = 0) as Huv by lra.
  f_equal.
  - apply Rmult_integral in Hxy. lra.
  - apply IH; [lia|done].
Qed.

Lemma Rdist_pos u v : length u = length v -> u <> v -> 0 < Rdist u v.
Proof.
  intros Hlen Hne. unfold Rdist. apply sqrt_lt_R0.
  pose proof (Rsum_squares_nonneg u v) as Hge.
  destruct (Req_dec_T (Rsum (zip_with (fun x y => (x - y) * (x - y)) u v)) 0) as [Hz|Hnz].
  - by apply sum_squares_zero in Hz.
  - lra.
Qed.

Lemma Rpdist_pos d rows :
  Forall (fun row => length row = d) rows -> NoDup rows ->
  Forall (fun x => 0 < x) (Rpdist rows).
Proof.
  intros Hwf Hnd. induction Hwf as [|u rows Hu Hwf IH]; simpl; [done|].
  apply NoDup_cons in Hnd as [Hnotin Hnd].
  apply Forall_app. split; [|by apply IH].
  apply Forall_map. rewrite Forall_forall in Hwf. apply Forall_forall.
  intros v Hv. simpl. apply Rdist_pos.
  - rewrite Hu. symmetry. by apply Hwf.
  - intros ->. done.
Qed.

Lemma foldl_Rmin_pos x xs :
  0 < x -> Forall (fun y => 0 < y) xs -> 0 < foldl Rmin x xs.
Proof.
  intros Hx Hxs. revert x Hx. induction Hxs as [|y xs Hy _ IH]; intros x Hx; [done|].
  simpl. apply IH. by apply Rmin_glb_lt.
Qed.

Lemma min_pairwise_distance_pos d rows :
  (2 <= length rows)%nat ->
  Forall (fun row => length row = d) rows -> NoDup rows ->
  0 < min_pairwise_distance rows.
Proof.
  intros Hn Hwf Hnd. pose proof (Rpdist_pos d rows Hwf Hnd) as Hpos.
  unfold min_pairwise_distance.
  destruct rows as [|u [|v rest]]; simpl in Hn; try lia.
  rewrite Rpdist_two in *. inversion Hpos; subst. by apply foldl_Rmin_pos.
Qed.

Lemma div_scalar_real d rows c :
  c <> 0 ->
  div_scalar (of_reals d rows) (Real c) = of_reals d (map (map (fun x => x / c)) rows).
Proof.
  intros Hc. unfold div_scalar, of_reals. simpl. f_equal. rewrite !map_map.
  apply map_ext. intros row. rewrite !map_map. apply map_ext. intros x.
  by apply num_div_real.
Qed.

Lemma foldl_Rmin_least x xs :
  foldl Rmin x xs ∈ x :: xs /\ Forall (fun y => foldl Rmin x xs <= y) (x :: xs).
Proof.
  revert x. induction xs as [|y xs IH]; intros x.
  - simpl. split; [apply elem_of_cons; by left|].
    apply Forall_cons. split; [lra|apply Forall_nil_2].
  - simpl. destruct (IH (Rmin x y)) as [Hin Hle].
    apply Forall_cons in Hle as [Hm Hle].
    split.
    + apply elem_of_cons in Hin as [Heq|Hin].
      * rewrite Heq. unfold Rmin. destruct (Rle_dec x y).
        -- apply elem_of_cons. by left.
        -- apply elem_of_cons. right. apply elem_of_cons. by left.
      * apply elem_of_cons. right. apply elem_of_cons. by right.
    + pose proof (Rmin_l x y). pose proof (Rmin_r x y).
      repeat (apply Forall_cons; split); [lra|lra|done].
Qed.

Lemma elem_of_Rpdist rows d :
  d ∈ Rpdist rows <->
  exists i j u v, (i < j)%nat /\ rows !! i = Some u /\ rows !! j = Some v /\
                  d = Rdist u v.
Proof.
  revert d. induction rows as [|w rows IH]; intros d; simpl.
  - split; [by intros ?%elem_of_nil|]. intros (i & j & u & v & _ & Hi & _). done.
  - rewrite elem_of_app, list_elem_of_fmap, IH. split.
    + intros [(v & -> & Hv)|(i & j & u & v & Hij & Hi & Hj & ->)].
      * apply list_elem_of_lookup in Hv as [j Hj].
        exists 0%nat, (S j), w, v. repeat split; [lia|done..].
      * exists (S i), (S j), u, v. repeat split; [lia|done..].
    + intros (i & j & u & v & Hij & Hi & Hj & ->).
      destruct j as [|j]; [lia|]. simpl in Hj. destruct i as [|i].
      * simpl in Hi. injection Hi as ->. left. exists v. split; [done|].
        by eapply list_elem_of_lookup_2.
      * right. exists i, j, u, v. repeat split; [lia|done..].
Qed.

Lemma min_pairwise_distance_least rows :
  (2 <= length rows)%nat ->
  (exists i j u v, (i < j)%nat /\ rows !! i = Some u /\ rows !! j = Some v /\
                   min_pairwise_distance rows = Rdist u v) /\
  (forall i j u v, (i < j)%nat -> rows !! i = Some u -> rows !! j = Some v ->
                   min_pairwise_distance rows <= Rdist u v).
Proof.
  intros Hn. unfold min_pairwise_distance.
  destruct (Rpdist rows) as [|x xs] eqn:Hp.
  { destruct rows as [|u [|v rest]]; simpl in Hn; try lia. done. }
  destruct (foldl_Rmin_least x xs) as [Hin Hle]. rewrite <- Hp in Hin, Hle. split.
  - by apply elem_of_Rpdist.
  - intros i j u v Hij Hi Hj. rewrite Forall_forall in Hle. apply Hle.
    apply elem_of_Rpdist. by exists i, j, u, v.
Qed.

(** C4, as amended: for [n >= 2] points of dimension [d] that are pairwise
    distinct, [min_pairwise_distance], the distance of some pair of the
    original points and a lower bound of the distance of every pair, is
    positive, and [norm_and_center_coordinates] returns an array of the same
    shape whose coordinates are the centred coordinates divided by that
    distance and whose mean along axis 0 is the zero vector. *)
Theorem norm_and_center_coordinates_spec d (Xr : list (list R)) :
  (2 <= length Xr)%nat ->
  Forall (fun row => length row = d) Xr ->
  NoDup Xr ->
  0 < min_pairwise_distance Xr /\
  (exists i j u v, (i < j)%nat /\ Xr !! i = Some u /\ Xr !! j = Some v /\
                   min_pairwise_distance Xr = Rdist u v) /\
  (forall i j u v, (i < j)%nat -> Xr !! i = Some u -> Xr !! j = Some v ->
                   min_pairwise_distance Xr <= Rdist u v) /\
  norm_and_center_coordinates (of_reals d Xr) = Ok (of_reals d (normalized d Xr)) /\
  length (normalized d Xr) = length Xr /\
  Forall (fun row => length row = d) (normalized d Xr) /\
  mean_axis0 (of_reals d (normalized d Xr)) = replicate d (Real 0).
Proof.
  intros Hn Hwf Hnd.
  pose proof (min_pairwise_distance_pos d Xr Hn Hwf Hnd) as Hpos.
  assert (Xr <> []) as Hne by (intros ->; simpl in Hn; lia).
  assert (length (centroid d Xr) = d) as Hmu.
  { unfold centroid. by rewrite length_map, Rcolsum_length. }
  split; [done|].
  destruct (min_pairwise_distance_least Xr Hn) as [Hatt Hleast].
  split; [done|]. split; [done|]. split; [|split; [|split]].
  - rewrite norm_real by done. rewrite div_scalar_real by lra. done.
  - unfold normalized, centered. by rewrite !length_map.
  - unfold normalized, centered. rewrite !Forall_map.
    eapply Forall_impl; [exact Hwf|]. intros row Hrow. cbv beta.
    rewrite length_map, length_zip_with. simpl in Hrow. lia.
  - rewrite mean_axis0_real; last first.
    { unfold normalized, centered. destruct Xr; [done|]. done. }
    unfold centroid, normalized.
    rewrite Rcolsum_div, Rcolsum_centered by done.
    rewrite !map_map, fmap_replicate. do 2 f_equal.
    unfold Rdiv. lra.
Qed.

Lemma num_div_zero_zero x : x = 0 -> num_div (Real x) (Real 0) = NaN.
Proof. intros ->. simpl. by rewrite is_zero_true. Qed.

Lemma num_div_zero_neg x : x < 0 -> num_div (Real x) (Real 0) = NInf.
Proof.
  intros Hx. simpl. rewrite (is_zero_true 0) by done.
  rewrite is_zero_false by lra. by rewrite is_neg_true.
Qed.

Lemma num_div_zero_pos x : 0 < x -> num_div (Real x) (Real 0) = PInf.
Proof.
  intros Hx. simpl. rewrite (is_zero_true 0) by done.
  rewrite is_zero_false by lra. by rewrite is_neg_false by lra.
Qed.

Lemma Rdist_self u : Rdist u u = 0.
Proof.
  unfold Rdist. replace (Rsum _) with 0; [apply sqrt_0|].
  induction u as [|x u IH]; simpl; [done|].
  fold (Rsum (zip_with (fun x y => (x - y) * (x - y)) u u)). rewrite <- IH. lra.
Qed.

Lemma Rdist_nonneg u v : 0 <= Rdist u v.
Proof. apply sqrt_pos. Qed.

Lemma Rpdist_nonneg rows : Forall (fun x => 0 <= x) (Rpdist rows).
Proof.
  induction rows as [|u rows IH]; simpl; [done|].
  apply Forall_app. split; [|done].
  apply Forall_map, Forall_forall. intros v _. apply Rdist_nonneg.
Qed.

Lemma foldl_Rmin_zero x xs :
  x = 0 -> Forall (fun y => 0 <= y) xs -> foldl Rmin x xs = 0.
Proof.
  intros Hx Hxs. revert x Hx. induction Hxs as [|y xs Hy _ IH]; intros x Hx; [done|].
  simpl. apply IH. subst x. by apply Rmin_left.
Qed.

Lemma min_pairwise_distance_twice u rest :
  min_pairwise_distance (u :: u :: rest) = 0.
Proof.
  unfold min_pairwise_distance. rewrite Rpdist_two.
  apply foldl_Rmin_zero; [apply Rdist_self|].
  pose proof (Rpdist_nonneg (u :: u :: rest)) as H.
  rewrite Rpdist_two in H. by inversion H.
Qed.

Lemma Rcolsum_replicate n p :
  Rcolsum (length p) (replicate n p) = map (fun x => INR n * x) p.
Proof.
  induction n as [|n IH].
  - unfold Rcolsum. simpl. induction p as [|x p IHp]; simpl; [done|].
    rewrite IHp. f_equal. lra.
  - change (Rcolsum (length p) (replicate (S n) p))
      with (zip_with Rplus p (Rcolsum (length p) (replicate n p))).
    rewrite IH, zip_with_fmap_r, S_INR. clear.
    induction p as [|x p IHp]; simpl; [done|]. rewrite IHp. f_equal. lra.
Qed.

Lemma centered_replicate n p :
  (0 < n)%nat ->
  centered (length p) (replicate n p) = replicate n (map (fun _ => 0) p).
Proof.
  intros Hn. unfold centered, centroid.
  rewrite Rcolsum_replicate, length_replicate, map_map, fmap_replicate.
  f_equal. rewrite zip_with_fmap_r.
  assert (INR n <> 0) as Hnz by (apply not_0_INR; lia).
  clear Hn. induction p as [|x p IH]; simpl; [done|]. rewrite IH. f_equal. by field.
Qed.

Lemma norm_replicate n p :
  (2 <= n)%nat ->
  norm_and_center_coordinates (of_reals (length p) (replicate n p))
  = Ok (NdArray (length p) (replicate n (replicate (length p) NaN))).
Proof.
  intros Hn.
  rewrite norm_real by (rewrite length_replicate; lia).
  rewrite centered_replicate by lia.
  destruct n as [|[|n]]; try lia.
  change (replicate (S (S n)) p) with (p :: p :: replicate n p).
  rewrite min_pairwise_distance_twice.
  unfold div_scalar, of_reals. cbn [data shape1]. f_equal. f_equal.
  rewrite map_map, !fmap_replicate. f_equal.
  rewrite !map_map. clear. induction p as [|x p IH]; simpl; [done|].
  rewrite <- IH. f_equal. by rewrite is_zero_true.
Qed.

Lemma norm_raises_ValueError X :
  (norm_and_center_coordinates X = Raise ValueError <-> (shape0 X < 2)%nat) /\
  (forall e, norm_and_center_coordinates X = Raise e -> e = ValueError).
Proof.
  unfold norm_and_center_coordinates, shape0.
  destruct (data X) as [|u [|v rest]]; simpl.
  - split; [split; [lia|done]|]. by intros e [= <-].
  - split; [split; [lia|done]|]. by intros e [= <-].
  - split; [split; [done|lia]|]. by intros e.
Qed.

(** Whatever is divided by a zero scale, the quotient is not a finite
    number: a rounding of the centroid changes which of [nan], [inf] and
    [-inf] an entry is, not that it is one of them. *)
Lemma num_div_zero_not_finite a : is_finite (num_div a (Real 0)) = false.
Proof.
  destruct a as [x| | |]; simpl; rewrite ?(is_zero_true 0) by done; try done.
  - by destruct (is_zero x), (is_neg x).
  - by destruct (is_neg 0).
  - by destruct (is_neg 0).
Qed.

Lemma div_scalar_zero_entry A i j :
  (i < shape0 A)%nat -> (j < shape1 A)%nat -> wf A ->
  exists x, entry (div_scalar A (Real 0)) i j = Some x /\ is_finite x = false.
Proof.
  intros Hi Hj Hwf. unfold shape0 in Hi.
  destruct (lookup_lt_is_Some_2 (data A) i Hi) as [row Hrow].
  assert (length row = shape1 A) as Hlen.
  { unfold wf in Hwf. rewrite Forall_lookup in Hwf. by eapply Hwf. }
  destruct (lookup_lt_is_Some_2 row j ltac:(lia)) as [a Ha].
  exists (num_div a (Real 0)). split; [|apply num_div_zero_not_finite].
  unfold entry, div_scalar. cbn [data].
  rewrite list_lookup_fmap, Hrow. simpl. by rewrite list_lookup_fmap, Ha.
Qed.

(** C5, as amended: on [n >= 2] copies of one point
    [norm_and_center_coordinates] raises nothing: it divides by the zero
    least distance and returns an array of the same shape none of whose
    entries is a finite number.  The one error it ever raises is the
    [ValueError] of [min] on no distance, and it raises it exactly on arrays
    of fewer than two points. *)
Theorem norm_identical_points d n p :
  (2 <= n)%nat -> length p = d ->
  (exists Z,
      norm_and_center_coordinates (of_reals d (replicate n p)) = Ok Z /\
      shape0 Z = n /\ shape1 Z = d /\
      forall i j, (i < n)%nat -> (j < d)%nat ->
        exists x, entry Z i j = Some x /\ is_finite x = false) /\
  forall X,
    (norm_and_center_coordinates X = Raise ValueError <-> (shape0 X < 2)%nat) /\
    (forall e, norm_and_center_coordinates X = Raise e -> e = ValueError).
Proof.
  intros Hn Hp. split; [|apply norm_raises_ValueError].
  assert (Forall (fun row => length row = d) (replicate n p)) as Hrows.
  { by apply Forall_replicate. }
  assert (Forall (fun row => length row = d) (centered d (replicate n p))) as Hwf.
  { unfold centered. rewrite Forall_map. eapply Forall_impl; [exact Hrows|].
    intros row Hrow. simpl in *.
    unfold centroid. rewrite length_zip_with, length_map, Rcolsum_length by done. lia. }
  eexists. split; [apply norm_real; rewrite length_replicate; lia|].
  assert (min_pairwise_distance (replicate n p) = 0) as ->.
  { destruct n as [|[|n]]; try lia. apply (min_pairwise_distance_twice p). }
  assert (shape0 (of_reals d (centered d (replicate n p))) = n) as Hs0.
  { unfold shape0, of_reals, centered. cbn [data].
    by rewrite !length_map, length_replicate. }
  split; [|split; [done|]].
  - unfold div_scalar, shape0 in *. cbn [data] in *. by rewrite length_map.
  - intros i j Hi Hj. apply div_scalar_zero_entry; [by rewrite Hs0|done|].
    by apply wf_of_reals.
Qed.

Lemma norm_identical_points_witness :
  (exists Z,
      norm_and_center_coordinates (of_reals 2 (replicate 3 [1; 2])) = Ok Z /\
      shape0 Z = 3%nat /\ shape1 Z = 2%nat /\
      forall i j, (i < 3)%nat -> (j < 2)%nat ->
        exists x, entry Z i j = Some x /\ is_finite x = false) /\
  forall X,
    (norm_and_center_coordinates X = Raise ValueError <-> (shape0 X < 2)%nat) /\
    (forall e, norm_and_center_coordinates X = Raise e -> e = ValueError).
Proof. apply (norm_identical_points 2 3 [1; 2]); [lia | reflexivity]. Defined.

(** C5 fails as stated: on the two identical points [[0], [0]] no error is
    reported, the result is [[nan], [nan]]. *)
Lemma norm_identical_points_no_error :
  norm_and_center_coordinates (of_reals 1 [[0]; [0]]) = Ok (NdArray 1 [[NaN]; [NaN]]) /\
  ~ (exists e, norm_and_center_coordinates (of_reals 1 [[0]; [0]]) = Raise e).
Proof.
  assert (norm_and_center_coordinates (of_reals 1 [[0]; [0]])
          = Ok (NdArray 1 [[NaN]; [NaN]])) as H.
  { apply (norm_replicate 2 [0]). lia. }
  split; [done|]. intros [e He]. congruence.
Qed.

(** C4 fails as stated: [[0], [0], [1]] has three points, two of them
    distinct, yet its least pairwise distance is zero; the result is
    [[-inf], [-inf], [inf]], whose mean is [nan], not zero. *)
Lemma norm_mean_not_zero :
  let X := of_reals 1 [[0]; [0]; [1]] in
  (2 <= shape0 X)%nat /\
  (exists u v, u ∈ data X /\ v ∈ data X /\ u <> v) /\
  norm_and_center_coordinates X = Ok (NdArray 1 [[NInf]; [NInf]; [PInf]]) /\
  mean_axis0 (NdArray 1 [[NInf]; [NInf]; [PInf]]) = [NaN] /\
  [NaN] <> replicate 1 (Real 0).
Proof.
  cbv zeta. split; [unfold shape0; simpl; lia|]. split; [|split; [|split]].
  - exists [Real 0], [Real 1]. split; [|split].
    + simpl. apply elem_of_cons. by left.
    + simpl. rewrite !elem_of_cons. tauto.
    + intros H. injection H. lra.
  - rewrite norm_real by (simpl; lia).
    rewrite min_pairwise_distance_twice.
    unfold centered, centroid, Rcolsum, div_scalar, of_reals.
    cbn [data shape1 map foldr zip_with replicate length fmap list_fmap]. 
    do 2 f_equal.
    rewrite num_div_zero_neg, num_div_zero_pos; [done|..]; simpl; lra.
  - done.
  - done.
Qed.

Section Affine.
Variables (a : R) (t : list R).
Hypothesis a_pos : 0 < a.

Lemma Rsum_scale k l : Rsum (map (fun x => k * x) l) = k * Rsum l.
Proof.
  unfold Rsum. induction l as [|x l IH]; simpl; [lra|]. rewrite IH. lra.
Qed.

Lemma squares_affine u v :
  length u = length t -> length v = length t ->
  zip_with (fun x y => (x - y) * (x - y)) (affine_row a t u) (affine_row a t v)
  = map (fun s => a * a * s) (zip_with (fun x y => (x - y) * (x - y)) u v).
Proof.
  unfold affine_row. revert u v.
  induction t as [|tj t' IH]; intros [|x u] [|y v] Hu Hv; simpl in *; try done.
  f_equal; [lra|]. apply IH; lia.
Qed.

Lemma Rdist_affine u v :
  length u = length t -> length v = length t ->
  Rdist (affine_row a t u) (affine_row a t v) = a * Rdist u v.
Proof using a_pos.
  intros Hu Hv. unfold Rdist. rewrite squares_affine, Rsum_scale by done.
  rewrite sqrt_mult; [|nra|apply Rsum_squares_nonneg].
  rewrite sqrt_square by lra. done.
Qed.

Lemma Rpdist_affine rows :
  Forall (fun row => length row = length t) rows ->
  Rpdist (affine a t rows) = map (fun x => a * x) (Rpdist rows).
Proof using a_pos.
  intros Hwf. induction Hwf as [|u rows Hu Hwf IH]; [done|].
  change (Rpdist (affine a t (u :: rows)))
    with (map (Rdist (affine_row a t u)) (affine a t rows) ++ Rpdist (affine a t rows)).
  rewrite IH. simpl. rewrite map_app. f_equal.
  unfold affine. rewrite !map_map.
  rewrite Forall_forall in Hwf.
  apply map_ext_in. intros v Hv. apply Rdist_affine; [done|].
  apply Hwf. by apply list_elem_of_In.
Qed.

Lemma Rmin_scale x y : Rmin (a * x) (a * y) = a * Rmin x y.
Proof using a_pos.
  unfold Rmin. destruct (Rle_dec (a * x) (a * y)), (Rle_dec x y); try done; nra.
Qed.

Lemma foldl_Rmin_scale x xs :
  foldl Rmin (a * x) (map (fun y => a * y) xs) = a * foldl Rmin x xs.
Proof using a_pos.
  revert x. induction xs as [|y xs IH]; intros x; [done|].
  simpl. rewrite <- IH. f_equal. apply Rmin_scale.
Qed.

Lemma min_pairwise_distance_affine rows :
  Forall (fun row => length row = length t) rows ->
  min_pairwise_distance (affine a t rows) = a * min_pairwise_distance rows.
Proof using a_pos.
  intros Hwf. unfold min_pairwise_distance. rewrite Rpdist_affine by done.
  destruct (Rpdist rows) as [|x xs]; simpl; [lra|]. apply foldl_Rmin_scale.
Qed.

Lemma Rcolsum_affine rows :
  Forall (fun row => length row = length t) rows ->
  Rcolsum (length t) (affine a t rows)
  = zip_with (fun s tj => a * s + INR (length rows) * tj) (Rcolsum (length t) rows) t.
Proof.
  intros Hwf. induction Hwf as [|u rows Hu Hwf IH].
  - unfold Rcolsum. simpl. clear. induction t as [|tj t' IH]; simpl; [done|].
    rewrite <- IH. f_equal. lra.
  - change (Rcolsum (length t) (affine a t (u :: rows)))
      with (zip_with Rplus (affine_row a t u) (Rcolsum (length t) (affine a t rows))).
    rewrite IH.
    change (Rcolsum (length t) (u :: rows))
      with (zip_with Rplus u (Rcolsum (length t) rows)).
    pose proof (Rcolsum_length _ _ Hwf) as Hcs. revert Hcs.
    generalize (Rcolsum (length t) rows). intros cs Hcs.
    change (length (u :: rows)) with (S (length rows)). rewrite S_INR.
    generalize (INR (length rows)). intros n.
    unfold affine_row. clear IH Hwf. revert u cs Hu Hcs.
    induction t as [|tj t' IH]; intros [|x u] [|s cs] Hu Hcs; simpl in *; try done.
    f_equal; [lra|]. apply IH; lia.
Qed.

Lemma centroid_affine rows :
  rows <> [] ->
  Forall (fun row => length row = length t) rows ->
  centroid (length t) (affine a t rows) = affine_row a t (centroid (length t) rows).
Proof.
  intros Hne Hwf. unfold centroid, affine_row.
  rewrite Rcolsum_affine by done. unfold affine. rewrite length_map.
  pose proof (INR_pos_length rows Hne) as Hn. revert Hn.
  generalize (INR (length rows)). intros n Hn.
  generalize (Rcolsum (length t) rows). intros S.
  clear Hwf. revert S. induction t as [|tj t' IH]; intros [|s S]; simpl; try done.
  f_equal; [by field|]. apply IH.
Qed.

Lemma centered_affine rows :
  Forall (fun row => length row = length t) rows ->
  centered (length t) (affine a t rows)
  = map (map (fun c => a * c)) (centered (length t) rows).
Proof.
  intros Hwf. destruct (decide (rows = [])) as [->|Hne]; [done|].
  unfold centered. rewrite centroid_affine by done.
  unfold affine. rewrite !map_map. apply map_ext_in. intros u Hu.
  assert (length (centroid (length t) rows) = length t) as Hmu.
  { unfold centroid. by rewrite length_map, Rcolsum_length. }
  assert (length u = length t) as Hlen.
  { rewrite Forall_forall in Hwf. apply Hwf. by apply list_elem_of_In. }
  revert Hmu Hlen. generalize (centroid (length t) rows). intros mu.
  unfold affine_row. clear. revert u mu.
  induction t as [|tj t' IH]; intros [|x u] [|m mu] Hmu Hu; simpl in *; try done.
  f_equal; [lra|]. apply IH; lia.
Qed.

Lemma num_div_scale c delta :
  num_div (Real (a * c)) (Real (a * delta)) = num_div (Real c) (Real delta).
Proof using a_pos.
  simpl. unfold is_zero, is_neg.
  destruct (Req_dec_T delta 0) as [->|Hd].
  - rewrite Rmult_0_r. destruct (Req_dec_T 0 0); [|done].
    destruct (Req_dec_T (a * c) 0), (Req_dec_T c 0); try done; try nra.
    destruct (Rlt_dec (a * c) 0), (Rlt_dec c 0); try done; nra.
  - destruct (Req_dec_T (a * delta) 0); [nra|]. f_equal. field. split; lra.
Qed.

Lemma norm_affine rows :
  Forall (fun row => length row = length t) rows ->
  norm_and_center_coordinates (of_reals (length t) (affine a t rows))
  = norm_and_center_coordinates (of_reals (length t) rows).
Proof using a_pos.
  intros Hwf. destruct (decide (2 <= length rows)%nat) as [Hn|Hn].
  - rewrite !norm_real by (unfold affine; rewrite ?length_map; done).
    rewrite centered_affine, min_pairwise_distance_affine by done.
    unfold div_scalar, of_reals. cbn [data shape1]. do 2 f_equal.
    rewrite !map_map. apply map_ext. intros u. rewrite !map_map.
    apply map_ext. intros c. apply num_div_scale.
  - destruct rows as [|u [|v rest]]; simpl in Hn; try lia; done.
Qed.
End Affine.

(** ** [match_spots_using_spatial_heuristic] *)

Lemma norm_returns X :
  (2 <= shape0 X)%nat ->
  exists X', norm_and_center_coordinates X = Ok X' /\
             shape0 X' = shape0 X /\ shape1 X' = shape1 X.
Proof.
  intros Hn. unfold norm_and_center_coordinates, shape0 in *.
  destruct (data X) as [|u [|v rest]] eqn:HX; simpl in Hn; try lia.
  simpl. eexists. split; [done|]. 
  unfold div_scalar, sub_rowvec, shape0. simpl. rewrite HX. simpl.
  by rewrite !length_map.
Qed.

Lemma normalized_cost_returns X Y :
  (2 <= shape0 X)%nat -> (2 <= shape0 Y)%nat -> shape1 X = shape1 Y ->
  exists D, normalized_cost X Y = Ok D /\ shape0 D = shape0 X /\ shape1 D = shape0 Y.
Proof.
  intros HX HY Hd. unfold normalized_cost.
  destruct (norm_returns X HX) as (X' & -> & HX0 & HX1).
  destruct (norm_returns Y HY) as (Y' & -> & HY0 & HY1).
  cbn [mbind result_bind]. unfold distance_matrix.
  rewrite decide_True by congruence.
  eexists. split; [done|]. unfold shape0 in *. simpl. rewrite length_map. done.
Qed.

Lemma match_spots_unfold emd matcher X Y use_ot :
  match_spots_using_spatial_heuristic emd matcher X Y use_ot
  = (dist ← normalized_cost X Y;
     if use_ot then emd (uniform (shape0 X)) (uniform (shape0 Y)) dist
     else
       m ← matcher (csr_matrix dist);
       w ← py_truediv 1 (Nat.max (shape0 X) (shape0 Y));
       pi ← setitem_pairs (zeros (shape0 X) (shape0 Y)) m.1 m.2 w;
       if (shape0 X <? shape0 Y)%nat then
         u ← py_truediv 1 (shape0 X * shape0 Y);
         setitem_col_mask pi (not_in_mask m.2 (shape0 Y)) u
       else if (shape0 Y <? shape0 X)%nat then
         u ← py_truediv 1 (shape0 X * shape0 Y);
         setitem_row_mask pi (not_in_mask m.1 (shape0 X)) u
       else Ok pi).
Proof.
  unfold match_spots_using_spatial_heuristic, normalized_cost.
  destruct (norm_and_center_coordinates X); [|done].
  destruct (norm_and_center_coordinates Y); [|done]. done.
Qed.

(** Index assignment *)

Lemma setitem_ok a i j v :
  wf a -> (i < shape0 a)%nat -> (j < shape1 a)%nat ->
  exists a', setitem a i j v = Ok a' /\ wf a' /\
    shape0 a' = shape0 a /\ shape1 a' = shape1 a /\
    forall i' j', entry a' i' j'
      = if decide (i' = i /\ j' = j) then Some v else entry a i' j'.
Proof.
  intros Hwf Hi Hj. unfold setitem. rewrite decide_True by done.
  eexists. split; [done|].
  unfold wf, shape0, entry in *. cbn [data shape1].
  split; [|split; [|split]].
  - apply Forall_alter; [done|]. intros row Hrow Hlen. by rewrite length_insert.
  - by rewrite length_alter.
  - done.
  - intros i' j'. destruct (decide (i' = i)) as [->|Hne].
    + rewrite list_lookup_alter_eq.
      destruct (lookup_lt_is_Some_2 _ _ Hi) as [row Hrow]. rewrite Hrow. simpl.
      assert (length row = shape1 a) as Hlen.
      { rewrite Forall_lookup in Hwf. by eapply Hwf. }
      destruct (decide (j' = j)) as [->|Hnej].
      * rewrite decide_True by done. apply list_lookup_insert_eq. lia.
      * rewrite decide_False by tauto. by apply list_lookup_insert_ne.
    + rewrite list_lookup_alter_ne by done. by rewrite decide_False by tauto.
Qed.

Lemma setitem_all_ok a ps v :
  wf a ->
  Forall (fun p => (p.1 < shape0 a)%nat /\ (p.2 < shape1 a)%nat) ps ->
  exists a', setitem_all a ps v = Ok a' /\ wf a' /\
    shape0 a' = shape0 a /\ shape1 a' = shape1 a /\
    forall i j, entry a' i j = if decide ((i, j) ∈ ps) then Some v else entry a i j.
Proof.
  intros Hwf Hps. revert a Hwf Hps.
  induction ps as [|[i j] ps IH]; intros a Hwf Hps.
  - exists a. repeat split; done.
  - apply Forall_cons in Hps as [[Hi Hj] Hps]. simpl in Hi, Hj.
    destruct (setitem_ok a i j v Hwf Hi Hj) as (a1 & Hset & Hwf1 & H0 & H1 & Hent1).
    destruct (IH a1 Hwf1) as (a2 & Hall & Hwf2 & H02 & H12 & Hent2).
    { rewrite H0, H1. done. }
    exists a2. simpl. rewrite Hset. cbn [mbind result_bind].
    split; [done|]. split; [done|]. split; [congruence|]. split; [congruence|].
    intros i' j'. rewrite Hent2, Hent1.
    destruct (decide ((i', j') ∈ ps)) as [Hin|Hnin].
    + rewrite decide_True; [done|]. rewrite elem_of_cons. by right.
    + destruct (decide (i' = i /\ j' = j)) as [[-> ->]|Hne].
      * rewrite decide_True; [done|]. rewrite elem_of_cons. by left.
      * rewrite decide_False; [done|]. rewrite elem_of_cons. intros [[= -> ->]|?]; tauto.
Qed.

Lemma zeros_wf n1 n2 : wf (zeros n1 n2).
Proof.
  unfold wf, zeros. simpl. apply Forall_replicate. by rewrite length_replicate.
Qed.

Lemma zeros_entry n1 n2 i j :
  (i < n1)%nat -> (j < n2)%nat -> entry (zeros n1 n2) i j = Some (Real 0).
Proof.
  intros Hi Hj. unfold entry, zeros. simpl.
  rewrite lookup_replicate_2 by done. simpl. by rewrite lookup_replicate_2.
Qed.

Lemma setitem_pairs_zeros n1 n2 r c v :
  length r = length c ->
  Forall (fun i => (i < n1)%nat) r -> Forall (fun j => (j < n2)%nat) c ->
  exists a, setitem_pairs (zeros n1 n2) r c v = Ok a /\ wf a /\
    shape0 a = n1 /\ shape1 a = n2 /\
    forall i j, (i < n1)%nat -> (j < n2)%nat ->
      entry a i j = Some (if decide ((i, j) ∈ zip r c) then v else Real 0).
Proof.
  intros Hlen Hr Hc. unfold setitem_pairs, broadcast_index.
  rewrite decide_True by done. cbn [mbind result_bind].
  destruct (setitem_all_ok (zeros n1 n2) (zip r c) v (zeros_wf n1 n2))
    as (a & Ha & Hwf & H0 & H1 & Hent).
  { unfold shape0, zeros. simpl. rewrite length_replicate.
    apply Forall_forall. intros [i j] Hin. simpl.
    apply elem_of_zip_l in Hin as Hi. apply elem_of_zip_r in Hin as Hj.
    rewrite Forall_forall in Hr, Hc. split; [by apply Hr|by apply Hc]. }
  exists a. split; [done|]. split; [done|].
  unfold shape0, zeros in H0, H1. simpl in H0, H1. rewrite length_replicate in H0.
  split; [done|]. split; [done|].
  intros i j Hi Hj. rewrite Hent. destruct (decide _); [done|].
  by apply zeros_entry.
Qed.

Lemma lookup_not_in_mask ind n j :
  (j < n)%nat -> not_in_mask ind n !! j = Some (bool_decide (j ∉ ind)).
Proof.
  intros Hj. unfold not_in_mask. rewrite list_lookup_fmap.
  by rewrite lookup_seq_lt.
Qed.

Lemma length_not_in_mask ind n : length (not_in_mask ind n) = n.
Proof. unfold not_in_mask. by rewrite length_map, length_seq. Qed.

Lemma setitem_col_mask_ok a ind v :
  wf a ->
  exists a', setitem_col_mask a (not_in_mask ind (shape1 a)) v = Ok a' /\
    shape0 a' = shape0 a /\ shape1 a' = shape1 a /\
    forall i j, (i < shape0 a)%nat -> (j < shape1 a)%nat ->
      entry a' i j = if decide (j ∈ ind) then entry a i j else Some v.
Proof.
  intros Hwf. unfold setitem_col_mask.
  rewrite decide_True by apply length_not_in_mask.
  eexists. split; [done|]. unfold shape0, entry. cbn [data shape1].
  split; [by rewrite length_map|]. split; [done|].
  intros i j Hi Hj. rewrite list_lookup_fmap.
  destruct (lookup_lt_is_Some_2 _ _ Hi) as [row Hrow]. rewrite Hrow. simpl.
  assert (length row = shape1 a) as Hlen.
  { unfold wf in Hwf. rewrite Forall_lookup in Hwf. by eapply Hwf. }
  rewrite lookup_zip_with, lookup_not_in_mask by done. simpl.
  destruct (lookup_lt_is_Some_2 row j ltac:(lia)) as [x Hx]. rewrite Hx. simpl.
  destruct (decide (j ∈ ind)) as [Hin|Hnin].
  - by rewrite bool_decide_false by tauto.
  - by rewrite bool_decide_true.
Qed.

Lemma setitem_row_mask_ok a ind v :
  wf a ->
  exists a', setitem_row_mask a (not_in_mask ind (shape0 a)) v = Ok a' /\
    shape0 a' = shape0 a /\ shape1 a' = shape1 a /\
    forall i j, (i < shape0 a)%nat -> (j < shape1 a)%nat ->
      entry a' i j = if decide (i ∈ ind) then entry a i j else Some v.
Proof.
  intros Hwf. unfold setitem_row_mask.
  rewrite decide_True by apply length_not_in_mask.
  eexists. split; [done|]. unfold shape0, entry. cbn [data shape1].
  split; [by rewrite length_zip_with, length_not_in_mask; lia|]. split; [done|].
  intros i j Hi Hj.
  rewrite lookup_zip_with, lookup_not_in_mask by done. simpl.
  destruct (lookup_lt_is_Some_2 _ _ Hi) as [row Hrow]. rewrite Hrow. simpl.
  assert (length row = shape1 a) as Hlen.
  { unfold wf in Hwf. rewrite Forall_lookup in Hwf. by eapply Hwf. }
  destruct (decide (i ∈ ind)) as [Hin|Hnin].
  - by rewrite bool_decide_false by tauto.
  - rewrite bool_decide_true by done. rewrite list_lookup_fmap.
    destruct (lookup_lt_is_Some_2 row j ltac:(lia)) as [x Hx]. by rewrite Hx.
Qed.

Lemma py_truediv_one n :
  (0 < n)%nat -> py_truediv 1 n = Ok (Real (1 / INR n)).
Proof. intros Hn. unfold py_truediv. destruct n; [lia|]. done. Qed.

Lemma match_spots_matching emd matcher X Y r c :
  shape1 X = shape1 Y ->
  (2 <= shape0 X)%nat -> (2 <= shape0 Y)%nat ->
  (forall D, normalized_cost X Y = Ok D -> matcher (csr_matrix D) = Ok (r, c)) ->
  full_matching (shape0 X) (shape0 Y) r c ->
  exists pi,
    match_spots_using_spatial_heuristic emd matcher X Y false = Ok pi /\
    shape0 pi = shape0 X /\ shape1 pi = shape0 Y /\
    (shape0 X = shape0 Y ->
     setitem_pairs (zeros (shape0 X) (shape0 Y)) r c
       (Real (1 / INR (Nat.max (shape0 X) (shape0 Y)))) = Ok pi) /\
    forall i j, (i < shape0 X)%nat -> (j < shape0 Y)%nat ->
      entry pi i j = Some (Real (coupling_value (shape0 X) (shape0 Y) r c i j)).
Proof.
  intros Hd HX HY Hm (Hlr & Hlc & Hndr & Hndc & Hr & Hc).
  rewrite match_spots_unfold.
  destruct (normalized_cost_returns X Y HX HY Hd) as (D & HD & _ & _).
  rewrite HD. cbn [mbind result_bind]. rewrite (Hm D HD). cbn [mbind result_bind fst snd].
  rewrite (py_truediv_one (Nat.max (shape0 X) (shape0 Y))) by lia.
  rewrite (py_truediv_one (shape0 X * shape0 Y)) by nia.
  cbn [mbind result_bind].
  destruct (setitem_pairs_zeros (shape0 X) (shape0 Y) r c
              (Real (1 / INR (Nat.max (shape0 X) (shape0 Y))))) 
    as (a & Ha & Hwf & H0 & H1 & Hent); [congruence|done|done|].
  rewrite Ha. cbn [mbind result_bind]. rewrite mult_INR.
  unfold coupling_value.
  destruct (Nat.ltb_spec (shape0 X) (shape0 Y)) as [Hlt|Hge].
  - cbn [mbind result_bind].
    destruct (setitem_col_mask_ok a c (Real (1 / (INR (shape0 X) * INR (shape0 Y)))) Hwf)
      as (a' & Ha' & H0' & H1' & Hent').
    rewrite H1 in Ha'. rewrite Ha'. exists a'.
    split; [done|]. split; [congruence|]. split; [congruence|]. split; [lia|].
    intros i j Hi Hj. rewrite Hent' by lia.
    destruct (decide (j ∈ c)) as [Hin|Hnin].
    + rewrite decide_False by tauto. rewrite decide_False by (intros [? ?]; lia).
      rewrite Hent by done. by destruct (decide _).
    + by rewrite decide_True.
  - destruct (Nat.ltb_spec (shape0 Y) (shape0 X)) as [Hlt|Hge'].
    + cbn [mbind result_bind].
      destruct (setitem_row_mask_ok a r (Real (1 / (INR (shape0 X) * INR (shape0 Y)))) Hwf)
        as (a' & Ha' & H0' & H1' & Hent').
      rewrite H0 in Ha'. rewrite Ha'. exists a'.
      split; [done|]. split; [congruence|]. split; [congruence|]. split; [lia|].
      intros i j Hi Hj. rewrite Hent' by lia.
      destruct (decide (i ∈ r)) as [Hin|Hnin].
      * rewrite decide_False by (intros [? ?]; lia).
        rewrite decide_False by tauto. rewrite Hent by done. by destruct (decide _).
      * rewrite decide_False by (intros [? ?]; lia). by rewrite decide_True.
    + exists a. split; [done|]. split; [done|]. split; [done|]. split; [done|].
      intros i j Hi Hj. rewrite !decide_False by (intros [? ?]; lia).
      rewrite Hent by done. by destruct (decide _).
Qed.

Lemma full_range (l : list nat) n :
  NoDup l -> length l = n -> Forall (fun i => (i < n)%nat) l ->
  forall i, (i < n)%nat -> i ∈ l.
Proof.
  intros Hnd Hlen Hlt i Hi.
  destruct (decide (i ∈ l)) as [|Hnot]; [done|]. exfalso.
  assert (l ⊆+ filter (fun y => y <> i) (seq 0 n)) as Hsub.
  { apply NoDup_submseteq; [done|]. intros y Hy. apply list_elem_of_filter.
    split; [by intros ->|]. apply elem_of_seq. rewrite Forall_forall in Hlt.
    specialize (Hlt y Hy). lia. }
  apply submseteq_length in Hsub.
  assert (length (filter (fun y => y <> i) (seq 0 n)) < length (seq 0 n))%nat.
  { apply length_filter_lt with i; [|tauto]. apply elem_of_seq. lia. }
  rewrite length_seq in *. lia.
Qed.

Lemma elem_of_zip_lookup (r c : list nat) i j :
  (i, j) ∈ zip r c <-> exists k, r !! k = Some i /\ c !! k = Some j.
Proof.
  rewrite list_elem_of_lookup. split.
  - intros [k Hk]. exists k. rewrite lookup_zip_with in Hk.
    destruct (r !! k); simpl in Hk; [|done]. destruct (c !! k); simpl in Hk; [|done].
    by inversion Hk.
  - intros (k & Hr & Hc). exists k. rewrite lookup_zip_with, Hr. simpl. by rewrite Hc.
Qed.

Lemma zip_matched_l (r c : list nat) i :
  length r = length c -> i ∈ r -> exists j, (i, j) ∈ zip r c.
Proof.
  intros Hlen Hi. apply list_elem_of_lookup in Hi as [k Hk].
  destruct (lookup_lt_is_Some_2 c k) as [j Hj].
  { rewrite <- Hlen. by eapply lookup_lt_Some. }
  exists j. apply elem_of_zip_lookup. eauto.
Qed.

Lemma zip_matched_r (r c : list nat) j :
  length r = length c -> j ∈ c -> exists i, (i, j) ∈ zip r c.
Proof.
  intros Hlen Hj. apply list_elem_of_lookup in Hj as [k Hk].
  destruct (lookup_lt_is_Some_2 r k) as [i Hi].
  { rewrite Hlen. by eapply lookup_lt_Some. }
  exists i. apply elem_of_zip_lookup. eauto.
Qed.

Lemma zip_functional_l (r c : list nat) i j j' :
  NoDup r -> (i, j) ∈ zip r c -> (i, j') ∈ zip r c -> j = j'.
Proof.
  intros Hnd (k & Hr & Hc)%elem_of_zip_lookup (k' & Hr' & Hc')%elem_of_zip_lookup.
  assert (k = k') as <- by (by eapply NoDup_lookup). congruence.
Qed.

Lemma zip_functional_r (r c : list nat) i i' j :
  NoDup c -> (i, j) ∈ zip r c -> (i', j) ∈ zip r c -> i = i'.
Proof.
  intros Hnd (k & Hr & Hc)%elem_of_zip_lookup (k' & Hr' & Hc')%elem_of_zip_lookup.
  assert (k = k') as <- by (by eapply NoDup_lookup). congruence.
Qed.

Lemma INR_ge_2 n : (2 <= n)%nat -> 2 <= INR n.
Proof. intros Hn. apply le_INR in Hn. simpl in Hn. lra. Qed.

Lemma leftover_ne_match a b : 2 <= a -> 0 < b -> 1 / (a * b) <> 1 / b.
Proof.
  intros Ha Hb Heq.
  assert (1 / (a * b) * (a * b) = 1) as H1 by (field; lra).
  assert (1 / b * (a * b) = a) as H2 by (field; lra).
  rewrite Heq in H1. lra.
Qed.

(** C1: with [use_ot = false], on point sets of [n1] and [n2] points (at
    least two each, of one dimension) for which the matcher returns the full
    matching [(r, c)], the function returns an [n1] by [n2] array; when
    [n1 < n2] every row holds the value [1/n2] at exactly one column, the one
    it is matched with, and every column outside the matching holds
    [1/(n1*n2)] in all rows; when [n2 < n1] every row outside the matching
    holds [1/(n1*n2)] in all columns. *)
Theorem match_spots_unbalanced emd matcher X Y r c :
  shape1 X = shape1 Y ->
  (2 <= shape0 X)%nat -> (2 <= shape0 Y)%nat ->
  (forall D, normalized_cost X Y = Ok D -> matcher (csr_matrix D) = Ok (r, c)) ->
  full_matching (shape0 X) (shape0 Y) r c ->
  exists pi,
    match_spots_using_spatial_heuristic emd matcher X Y false = Ok pi /\
    shape0 pi = shape0 X /\ shape1 pi = shape0 Y /\
    ((shape0 X < shape0 Y)%nat ->
       (forall i, (i < shape0 X)%nat ->
          exists j, (j < shape0 Y)%nat /\ (i, j) ∈ zip r c /\
            entry pi i j = Some (Real (1 / INR (shape0 Y))) /\
            forall j', (j' < shape0 Y)%nat ->
              entry pi i j' = Some (Real (1 / INR (shape0 Y))) -> j' = j) /\
       (forall j, (j < shape0 Y)%nat -> j ∉ c ->
          forall i, (i < shape0 X)%nat ->
            entry pi i j = Some (Real (1 / (INR (shape0 X) * INR (shape0 Y)))))) /\
    ((shape0 Y < shape0 X)%nat ->
       forall i, (i < shape0 X)%nat -> i ∉ r ->
         forall j, (j < shape0 Y)%nat ->
           entry pi i j = Some (Real (1 / (INR (shape0 X) * INR (shape0 Y))))).
Proof.
  intros Hd HX HY Hm Hfull.
  destruct (match_spots_matching emd matcher X Y r c Hd HX HY Hm Hfull)
    as (pi & Hpi & H0 & H1 & _ & Hent).
  destruct Hfull as (Hlr & Hlc & Hndr & Hndc & Hr & Hc).
  exists pi. split; [done|]. split; [done|]. split; [done|]. split.
  - intros Hlt. rewrite Nat.min_l in Hlr, Hlc by lia. split.
    + intros i Hi.
      assert (i ∈ r) as Hir by (by apply (full_range r (shape0 X))).
      destruct (zip_matched_l r c i) as [j Hij]; [congruence|done|].
      assert (j ∈ c) as Hjc by (by eapply elem_of_zip_r).
      assert (j < shape0 Y)%nat as Hj.
      { rewrite Forall_forall in Hc. by apply Hc. }
      exists j. split; [done|]. split; [done|]. split.
      * rewrite Hent by done. unfold coupling_value.
        rewrite decide_False by tauto. rewrite decide_False by (intros [? ?]; lia).
        rewrite decide_True by done. by rewrite Nat.max_r by lia.
      * intros j' Hj'. rewrite Hent by done. unfold coupling_value.
        intros [= Heq]. revert Heq.
        pose proof (INR_ge_2 _ HX) as HX2. pose proof (INR_ge_2 _ HY) as HY2.
        destruct (decide _) as [[_ Hnin]|_].
        { intros Heq. exfalso. eapply leftover_ne_match; [| |exact Heq]; lra. }
        rewrite decide_False by (intros [? ?]; lia).
        destruct (decide _) as [Hin|_].
        { intros _. by apply (zip_functional_l r c i j' j). }
        intros Heq. exfalso.
        assert (0 < 1 / INR (shape0 Y)); [|lra].
        apply Rdiv_lt_0_compat; lra.
    + intros j Hj Hjc i Hi. rewrite Hent by done. unfold coupling_value.
      by rewrite decide_True.
  - intros Hlt i Hi Hir j Hj. rewrite Hent by done. unfold coupling_value.
    rewrite decide_False by (intros [? ?]; lia). by rewrite decide_True.
Qed.

(** C2: with [use_ot = false] and [n1 = n2 = n], the function returns the
    [n] by [n] array obtained from the zero array by the assignment of the
    matched pairs alone (no leftover mass is spread): every row and every
    column holds the value [1/n], which is not zero, at exactly one place
    and zero elsewhere. *)
Theorem match_spots_balanced emd matcher X Y r c :
  shape1 X = shape1 Y ->
  (2 <= shape0 X)%nat -> shape0 X = shape0 Y ->
  (forall D, normalized_cost X Y = Ok D -> matcher (csr_matrix D) = Ok (r, c)) ->
  full_matching (shape0 X) (shape0 Y) r c ->
  exists pi,
    match_spots_using_spatial_heuristic emd matcher X Y false = Ok pi /\
    shape0 pi = shape0 X /\ shape1 pi = shape0 X /\
    setitem_pairs (zeros (shape0 X) (shape0 X)) r c (Real (1 / INR (shape0 X))) = Ok pi /\
    1 / INR (shape0 X) <> 0 /\
    (forall i, (i < shape0 X)%nat ->
       exists j, (j < shape0 X)%nat /\
         entry pi i j = Some (Real (1 / INR (shape0 X))) /\
         forall j', (j' < shape0 X)%nat -> j' <> j -> entry pi i j' = Some (Real 0)) /\
    (forall j, (j < shape0 X)%nat ->
       exists i, (i < shape0 X)%nat /\
         entry pi i j = Some (Real (1 / INR (shape0 X))) /\
         forall i', (i' < shape0 X)%nat -> i' <> i -> entry pi i' j = Some (Real 0)).
Proof.
  intros Hd HX Hn Hm Hfull.
  destruct (match_spots_matching emd matcher X Y r c Hd HX ltac:(lia) Hm Hfull)
    as (pi & Hpi & H0 & H1 & Hset & Hent).
  destruct Hfull as (Hlr & Hlc & Hndr & Hndc & Hr & Hc).
  rewrite <- Hn in *. rewrite Nat.min_id in Hlr, Hlc. rewrite Nat.max_id in Hset.
  assert (forall i j, (i < shape0 X)%nat -> (j < shape0 X)%nat ->
            entry pi i j
            = Some (Real (if decide ((i, j) ∈ zip r c) then 1 / INR (shape0 X) else 0)))
    as Hent'.
  { intros i j Hi Hj. rewrite Hent by done. unfold coupling_value.
    rewrite !decide_False by (intros [? ?]; lia). by rewrite Nat.max_id. }
  pose proof (INR_ge_2 _ HX) as HX2.
  exists pi. split; [done|]. split; [done|]. split; [done|]. split; [by apply Hset|].
  split; [|split].
  - assert (0 < 1 / INR (shape0 X)); [|lra]. apply Rdiv_lt_0_compat; lra.
  - intros i Hi.
    assert (i ∈ r) as Hir by (by apply (full_range r (shape0 X))).
    destruct (zip_matched_l r c i) as [j Hij]; [congruence|done|].
    assert (j < shape0 X)%nat as Hj.
    { rewrite Forall_forall in Hc. apply Hc. by eapply elem_of_zip_r. }
    exists j. split; [done|]. split.
    + rewrite Hent' by done. by rewrite decide_True.
    + intros j' Hj' Hne. rewrite Hent' by done. rewrite decide_False; [done|].
      intros Hin. apply Hne. by apply (zip_functional_l r c i j' j).
  - intros j Hj.
    assert (j ∈ c) as Hjc by (by apply (full_range c (shape0 X))).
    destruct (zip_matched_r r c j) as [i Hij]; [congruence|done|].
    assert (i < shape0 X)%nat as Hi.
    { rewrite Forall_forall in Hr. apply Hr. by eapply elem_of_zip_l. }
    exists i. split; [done|]. split.
    + rewrite Hent' by done. by rewrite decide_True.
    + intros i' Hi' Hne. rewrite Hent' by done. rewrite decide_False; [done|].
      intros Hin. apply Hne. by apply (zip_functional_r r c i' i j).
Qed.

Lemma shape0_affine d a t rows :
  shape0 (of_reals d (affine a t rows)) = shape0 (of_reals d rows).
Proof. unfold shape0, of_reals, affine. simpl. by rewrite !length_map. Qed.

(** C10: for every point set [X] of real coordinates (those with two
    distinct points included), every translation [t] and every scale
    [a > 0], [norm_and_center_coordinates (a * X + t)] is
    [norm_and_center_coordinates X]; hence, whatever the two solvers and the
    mode, [match_spots_using_spatial_heuristic] returns the same outcome on
    [(a * X + t, b * Y + s)] as on [(X, Y)]. *)
Theorem normalization_invariant emd matcher (a b : R) (t s : list R)
    (Xr Yr : list (list R)) :
  0 < a -> 0 < b ->
  Forall (fun row => length row = length t) Xr ->
  Forall (fun row => length row = length s) Yr ->
  norm_and_center_coordinates (of_reals (length t) (affine a t Xr))
  = norm_and_center_coordinates (of_reals (length t) Xr) /\
  forall use_ot,
    match_spots_using_spatial_heuristic emd matcher
      (of_reals (length t) (affine a t Xr)) (of_reals (length s) (affine b s Yr)) use_ot
    = match_spots_using_spatial_heuristic emd matcher
        (of_reals (length t) Xr) (of_reals (length s) Yr) use_ot.
Proof.
  intros Ha Hb HX HY. split; [by apply norm_affine|].
  intros use_ot. unfold match_spots_using_spatial_heuristic.
  rewrite !shape0_affine. by rewrite !norm_affine.
Qed.

Lemma normalization_invariant_witness :
  norm_and_center_coordinates (of_reals 1 (affine 2 [1] [[0]; [1]]))
  = norm_and_center_coordinates (of_reals 1 [[0]; [1]]) /\
  forall use_ot,
    match_spots_using_spatial_heuristic (fun _ _ D => Ok D) (fun _ => Raise ValueError)
      (of_reals 1 (affine 2 [1] [[0]; [1]])) (of_reals 1 (affine 3 [0] [[0]; [2]])) use_ot
    = match_spots_using_spatial_heuristic (fun _ _ D => Ok D) (fun _ => Raise ValueError)
        (of_reals 1 [[0]; [1]]) (of_reals 1 [[0]; [2]]) use_ot.
Proof.
  apply (normalization_invariant (fun _ _ D => Ok D) (fun _ => Raise ValueError)
           2 3 [1] [0] [[0]; [1]] [[0]; [2]]);
    [lra | lra | repeat constructor | repeat constructor].
Defined.


Ltac nodup_pair :=
  apply NoDup_cons; split;
  [rewrite list_elem_of_singleton; lia | apply NoDup_singleton].

Lemma full_matching_2_3 : full_matching 2 3 [0; 1]%nat [0; 1]%nat.
Proof.
  unfold full_matching. simpl. repeat split; try done.
  - nodup_pair.
  - nodup_pair.
  - repeat constructor; lia.
  - repeat constructor; lia.
Qed.

Lemma full_matching_2_2 : full_matching 2 2 [0; 1]%nat [1; 0]%nat.
Proof.
  unfold full_matching. simpl. repeat split; try done.
  - nodup_pair.
  - nodup_pair.
  - repeat constructor; lia.
  - repeat constructor; lia.
Qed.

Lemma match_spots_unbalanced_witness :
  let emd := fun (_ _ : list num) (D : ndarray) => Ok D in
  let matcher := fun _ : csr => Ok ([0; 1]%nat, [0; 1]%nat) in
  let X := of_reals 1 [[0]; [1]] in
  let Y := of_reals 1 [[0]; [1]; [2]] in
  let r := [0; 1]%nat in
  let c := [0; 1]%nat in
  exists pi,
    match_spots_using_spatial_heuristic emd matcher X Y false = Ok pi /\
    shape0 pi = shape0 X /\ shape1 pi = shape0 Y /\
    ((shape0 X < shape0 Y)%nat ->
       (forall i, (i < shape0 X)%nat ->
          exists j, (j < shape0 Y)%nat /\ (i, j) ∈ zip r c /\
            entry pi i j = Some (Real (1 / INR (shape0 Y))) /\
            forall j', (j' < shape0 Y)%nat ->
              entry pi i j' = Some (Real (1 / INR (shape0 Y))) -> j' = j) /\
       (forall j, (j < shape0 Y)%nat -> j ∉ c ->
          forall i, (i < shape0 X)%nat ->
            entry pi i j = Some (Real (1 / (INR (shape0 X) * INR (shape0 Y)))))) /\
    ((shape0 Y < shape0 X)%nat ->
       forall i, (i < shape0 X)%nat -> i ∉ r ->
         forall j, (j < shape0 Y)%nat ->
           entry pi i j = Some (Real (1 / (INR (shape0 X) * INR (shape0 Y))))).
Proof.
  intros emd matcher X Y r c.
  apply (match_spots_unbalanced emd matcher X Y r c).
  - reflexivity.
  - unfold shape0; simpl; lia.
  - unfold shape0; simpl; lia.
  - intros D _. reflexivity.
  - exact full_matching_2_3.
Defined.

Lemma match_spots_balanced_witness :
  let emd := fun (_ _ : list num) (D : ndarray) => Ok D in
  let matcher := fun _ : csr => Ok ([0; 1]%nat, [1; 0]%nat) in
  let X := of_reals 1 [[0]; [1]] in
  let Y := of_reals 1 [[0]; [3]] in
  let r := [0; 1]%nat in
  let c := [1; 0]%nat in
  exists pi,
    match_spots_using_spatial_heuristic emd matcher X Y false = Ok pi /\
    shape0 pi = shape0 X /\ shape1 pi = shape0 X /\
    setitem_pairs (zeros (shape0 X) (shape0 X)) r c (Real (1 / INR (shape0 X))) = Ok pi /\
    1 / INR (shape0 X) <> 0 /\
    (forall i, (i < shape0 X)%nat ->
       exists j, (j < shape0 X)%nat /\
         entry pi i j = Some (Real (1 / INR (shape0 X))) /\
         forall j', (j' < shape0 X)%nat -> j' <> j -> entry pi i j' = Some (Real 0)) /\
    (forall j, (j < shape0 X)%nat ->
       exists i, (i < shape0 X)%nat /\
         entry pi i j = Some (Real (1 / INR (shape0 X))) /\
         forall i', (i' < shape0 X)%nat -> i' <> i -> entry pi i' j = Some (Real 0)).
Proof.
  intros emd matcher X Y r c.
  apply (match_spots_balanced emd matcher X Y r c).
  - reflexivity.
  - unfold shape0; simpl; lia.
  - reflexivity.
  - intros D _. reflexivity.
  - exact full_matching_2_2.
Defined.

Lemma norm_and_center_coordinates_spec_witness :
  0 < min_pairwise_distance [[0]; [1]] /\
  (exists i j u v, (i < j)%nat /\ [[0]; [1]] !! i = Some u /\ [[0]; [1]] !! j = Some v /\
                   min_pairwise_distance [[0]; [1]] = Rdist u v) /\
  (forall i j u v, (i < j)%nat -> [[0]; [1]] !! i = Some u -> [[0]; [1]] !! j = Some v ->
                   min_pairwise_distance [[0]; [1]] <= Rdist u v) /\
  norm_and_center_coordinates (of_reals 1 [[0]; [1]])
  = Ok (of_reals 1 (normalized 1 [[0]; [1]])) /\
  length (normalized 1 [[0]; [1]]) = length [[0]; [1]] /\
  Forall (fun row => length row = 1%nat) (normalized 1 [[0]; [1]]) /\
  mean_axis0 (of_reals 1 (normalized 1 [[0]; [1]])) = replicate 1 (Real 0).
Proof.
  apply (norm_and_center_coordinates_spec 1 [[0]; [1]]).
  - simpl. lia.
  - repeat constructor.
  - apply NoDup_cons. split; [|apply NoDup_singleton].
    rewrite list_elem_of_singleton. intros [= H]. lra.
Defined.

(** ** The optimal-transport mode

    With [use_ot = true] the function hands the cost matrix to [ot.emd] and
    returns what the solver returns; on its side it fixes the two marginals:
    [1/n1] for each of the [n1] rows and [1/n2] for each of the [n2] columns,
    of total mass one each. *)

Lemma uniform_entries n :
  (0 < n)%nat -> uniform n = replicate n (Real (1 / INR n)).
Proof.
  intros Hn. unfold uniform. rewrite fmap_replicate. f_equal.
  apply num_div_real. apply not_0_INR. lia.
Qed.

Lemma num_sum_replicate n x :
  num_sum (replicate n (Real x)) = Real (INR n * x).
Proof.
  induction n as [|n IH]; [simpl; f_equal; lra|].
  change (num_sum (replicate (S n) (Real x)))
    with (num_add (Real x) (num_sum (replicate n (Real x)))).
  rewrite IH, S_INR. simpl. f_equal. lra.
Qed.

Lemma uniform_total n : (0 < n)%nat -> num_sum (uniform n) = Real 1.
Proof.
  intros Hn. rewrite uniform_entries, num_sum_replicate by done. f_equal.
  field. apply not_0_INR. lia.
Qed.

Lemma match_spots_transport_call emd matcher X Y :
  match_spots_using_spatial_heuristic emd matcher X Y true
  = (dist ← normalized_cost X Y; emd (uniform (shape0 X)) (uniform (shape0 Y)) dist).
Proof. by rewrite match_spots_unfold. Qed.

Lemma distance_matrix_real d Xn Yn :
  distance_matrix (of_reals d Xn) (of_reals d Yn)
  = Ok (of_reals (length Yn) (map (fun u => map (fun v => Rdist u v) Yn) Xn)).
Proof.
  unfold distance_matrix. rewrite decide_True by done.
  unfold of_reals, shape0. cbn [data shape1]. rewrite length_map. do 2 f_equal.
  rewrite !map_map. apply map_ext. intros u. rewrite !map_map.
  apply map_ext. intros v. apply euclidean_real.
Qed.

Lemma norm_real_pos d rows :
  (2 <= length rows)%nat ->
  Forall (fun row => length row = d) rows -> NoDup rows ->
  norm_and_center_coordinates (of_reals d rows) = Ok (of_reals d (normalized d rows)).
Proof.
  intros Hn Hwf Hnd.
  pose proof (min_pairwise_distance_pos d rows Hn Hwf Hnd) as Hpos.
  rewrite norm_real by done. by rewrite div_scalar_real by lra.
Qed.

Lemma normalized_length d rows : length (normalized d rows) = length rows.
Proof. unfold normalized, centered. by rewrite !length_map. Qed.

Lemma normalized_cost_real d Xr Yr :
  (2 <= length Xr)%nat -> (2 <= length Yr)%nat ->
  Forall (fun row => length row = d) Xr -> Forall (fun row => length row = d) Yr ->
  NoDup Xr -> NoDup Yr ->
  normalized_cost (of_reals d Xr) (of_reals d Yr)
  = Ok (of_reals (length Yr) (normalized_distances d Xr Yr)).
Proof.
  intros. unfold normalized_cost. rewrite !norm_real_pos by done.
  cbn [mbind result_bind]. rewrite distance_matrix_real.
  by rewrite normalized_length.
Qed.

Lemma normalized_distances_cost_matrix d Xr Yr :
  cost_matrix (length Xr) (length Yr) (normalized_distances d Xr Yr).
Proof.
  unfold cost_matrix, normalized_distances. split; [|split].
  - by rewrite length_map, normalized_length.
  - apply Forall_map, Forall_forall. intros u _. simpl.
    by rewrite length_map, normalized_length.
  - apply Forall_map, Forall_forall. intros u _. simpl.
    apply Forall_map, Forall_forall. intros v _. apply Rdist_nonneg.
Qed.

Lemma Rsum_replicate n x : Rsum (replicate n x) = INR n * x.
Proof.
  induction n as [|n IH]; [simpl; lra|].
  change (Rsum (replicate (S n) x)) with (x + Rsum (replicate n x)).
  rewrite IH, S_INR. lra.
Qed.

Lemma Rsum_upto_const n x : Rsum_upto n (fun _ => x) = INR n * x.
Proof.
  unfold Rsum_upto. rewrite <- Rsum_replicate. f_equal.
  generalize 0%nat. induction n as [|n IH]; intros s; simpl; [done|]. by rewrite IH.
Qed.

Lemma Rsum_upto_ext n f g :
  (forall i, (i < n)%nat -> f i = g i) -> Rsum_upto n f = Rsum_upto n g.
Proof.
  intros Hfg. unfold Rsum_upto. f_equal. apply map_ext_in. intros i Hi.
  apply Hfg. apply in_seq in Hi. lia.
Qed.

Lemma uniform_real n :
  (0 < n)%nat -> uniform n = map Real (replicate n (1 / INR n)).
Proof. intros Hn. rewrite uniform_entries by done. by rewrite fmap_replicate. Qed.

Lemma nth_replicate_lt {A} (x d : A) n i : (i < n)%nat -> nth i (replicate n x) d = x.
Proof.
  intros Hi. apply nth_lookup_Some. by apply lookup_replicate_2.
Qed.




(** What the function hands to the solver on two sets of pairwise distinct
    points: marginals and a cost matrix as the contract asks for them. *)
Lemma match_spots_transport_inputs emd matcher d (Xr Yr : list (list R)) :
  (2 <= length Xr)%nat -> (2 <= length Yr)%nat ->
  Forall (fun row => length row = d) Xr -> Forall (fun row => length row = d) Yr ->
  NoDup Xr -> NoDup Yr ->
  let n1 := length Xr in
  let n2 := length Yr in
  match_spots_using_spatial_heuristic emd matcher (of_reals d Xr) (of_reals d Yr) true
  = emd (map Real (replicate n1 (1 / INR n1))) (map Real (replicate n2 (1 / INR n2)))
      (of_reals n2 (normalized_distances d Xr Yr)).
Proof.
  intros HnX HnY HwX HwY HdX HdY n1 n2.
  rewrite match_spots_transport_call, normalized_cost_real by done.
  cbn [mbind result_bind].
  unfold shape0, of_reals. cbn [data]. rewrite !length_map.
  by rewrite !uniform_real by (fold n1 n2; lia).
Qed.


(** ** Existence of an optimal coupling

    The contract of the solver can be met: the transport problem has a
    solution.  A minimising sequence of couplings has a subsequence that
    converges entry by entry (Bolzano-Weierstrass on every entry in turn);
    its limit is a coupling, of the least cost. *)

Lemma increasing_ge (phi : nat -> nat) :
  (forall m, (phi m < phi (S m))%nat) -> forall m, (m <= phi m)%nat.
Proof.
  intros Hphi m. induction m as [|m IH]; [lia|]. specialize (Hphi m). lia.
Qed.

Lemma Un_cv_subsequence (v : nat -> R) l (phi : nat -> nat) :
  (forall m, (phi m < phi (S m))%nat) -> Un_cv v l -> Un_cv (fun m => v (phi m)) l.
Proof.
  intros Hphi Hcv eps Heps. destruct (Hcv eps Heps) as [N HN].
  exists N. intros n Hn. apply HN. pose proof (increasing_ge phi Hphi n). lia.
Qed.

Lemma Un_cv_const_seq c : Un_cv (fun _ => c) c.
Proof.
  intros eps Heps. exists 0%nat. intros n _. unfold R_dist.
  rewrite Rminus_diag, Rabs_R0. lra.
Qed.

Lemma Un_cv_nonneg (v : nat -> R) l : (forall m, 0 <= v m) -> Un_cv v l -> 0 <= l.
Proof.
  intros Hv Hcv. destruct (Rle_dec 0 l) as [|Hneg]; [done|]. exfalso.
  destruct (Hcv (- l) ltac:(lra)) as [N HN].
  specialize (HN N ltac:(lia)). unfold R_dist in HN.
  specialize (Hv N). apply Rabs_def2 in HN. lra.
Qed.

Lemma Un_cv_squeeze (v : nat -> R) l (phi : nat -> nat) :
  (forall m, (phi m < phi (S m))%nat) ->
  (forall m, l <= v m < l + / INR (S (phi m))) -> Un_cv v l.
Proof.
  intros Hphi Hv eps Heps.
  destruct (archimed_cor1 eps Heps) as (N & HN & HNpos).
  exists N. intros n Hn. unfold R_dist.
  destruct (Hv n) as [Hlo Hhi].
  assert (/ INR (S (phi n)) <= / INR N) as Hle.
  { apply Rinv_le_contravar; [by apply lt_0_INR|]. apply le_INR.
    pose proof (increasing_ge phi Hphi n). lia. }
  rewrite Rabs_right by lra. lra.
Qed.

Lemma ValAdh_subsequence (u : nat -> R) l :
  ValAdh u l ->
  exists phi : nat -> nat,
    (forall m, (phi m < phi (S m))%nat) /\ Un_cv (fun m => u (phi m)) l.
Proof.
  intros Hadh.
  assert (forall mN : nat * nat, exists p,
             (mN.2 <= p)%nat /\ Rabs (u p - l) < / INR (S mN.1)) as Hex.
  { intros [m N]. simpl.
    assert (0 < / INR (S m)) as Hpos.
    { apply Rinv_0_lt_compat, lt_0_INR. lia. }
    destruct (Hadh (disc l (mkposreal _ Hpos)) N) as (p & Hp & Hd).
    - exists (mkposreal _ Hpos). by intros y Hy.
    - exists p. split; [lia|]. exact Hd. }
  destruct (ClassicalChoice.choice (fun (mN : nat * nat) p =>
                      (mN.2 <= p)%nat /\ Rabs (u p - l) < / INR (S mN.1)) Hex)
    as [g Hg].
  set (phi := nat_rec (fun _ => nat) (g (0%nat, 0%nat))
                (fun m r => g (S m, S r))).
  assert (forall m, Rabs (u (phi m) - l) < / INR (S m)) as Hclose.
  { intros [|m].
    - exact (proj2 (Hg (0%nat, 0%nat))).
    - exact (proj2 (Hg (S m, S (phi m)))). }
  exists phi. split.
  - intros m. simpl. pose proof (Hg (S m, S (phi m))) as [Hge _]. simpl in Hge. lia.
  - intros eps Heps.
    destruct (archimed_cor1 eps Heps) as (N & HN & HNpos).
    exists N. intros n Hn. unfold R_dist.
    eapply Rlt_trans; [apply Hclose|].
    eapply Rle_lt_trans; [|exact HN].
    apply Rinv_le_contravar; [by apply lt_0_INR|]. apply le_INR. lia.
Qed.

Lemma bounded_subsequence (u : nat -> R) :
  (forall m, 0 <= u m <= 1) ->
  exists (phi : nat -> nat) l,
    (forall m, (phi m < phi (S m))%nat) /\ Un_cv (fun m => u (phi m)) l.
Proof.
  intros Hu.
  destruct (Bolzano_Weierstrass u (fun c => 0 <= c <= 1)) as [l Hl].
  - apply compact_P3.
  - exact Hu.
  - destruct (ValAdh_subsequence u l Hl) as (phi & Hphi & Hcv). by exists phi, l.
Qed.

Lemma bounded_family_subsequence {K} `{EqDecision K} (ks : list K)
    (u : nat -> K -> R) :
  (forall m k, 0 <= u m k <= 1) ->
  exists (phi : nat -> nat) (l : K -> R),
    (forall m, (phi m < phi (S m))%nat) /\
    forall k, k ∈ ks -> Un_cv (fun m => u (phi m) k) (l k).
Proof.
  intros Hu. induction ks as [|k0 ks IH].
  - exists (fun m => m), (fun _ => 0). split; [lia|]. by intros k ?%elem_of_nil.
  - destruct IH as (phi & l & Hphi & Hcv).
    destruct (bounded_subsequence (fun m => u (phi m) k0)) as (psi & l0 & Hpsi & Hcv0).
    { intros m. apply Hu. }
    exists (fun m => phi (psi m)), (fun k => if decide (k = k0) then l0 else l k).
    split.
    + intros m. specialize (Hpsi m).
      assert (forall a b, (a < b)%nat -> (phi a < phi b)%nat) as Hmono.
      { intros a b Hab. induction Hab as [|b Hab IHab]; [apply Hphi|].
        specialize (Hphi b). lia. }
      by apply Hmono.
    + intros k Hk. destruct (decide (k = k0)) as [->|Hne]; [done|].
      apply elem_of_cons in Hk as [?|Hk]; [done|].
      apply (Un_cv_subsequence (fun m => u (phi m) k) (l k) psi Hpsi). by apply Hcv.
Qed.

Lemma Un_cv_Rsum_upto n (g : nat -> nat -> R) (h : nat -> R) :
  (forall k, (k < n)%nat -> Un_cv (fun m => g m k) (h k)) ->
  Un_cv (fun m => Rsum_upto n (g m)) (Rsum_upto n h).
Proof.
  unfold Rsum_upto. 
  assert (forall s, (forall k, (s <= k < s + n)%nat -> Un_cv (fun m => g m k) (h k)) ->
            Un_cv (fun m => Rsum (map (g m) (seq s n))) (Rsum (map h (seq s n)))) as Hgen.
  { induction n as [|n IH]; intros s Hcv; simpl.
    - apply Un_cv_const_seq.
    - apply (CV_plus (fun m => g m s) (fun m => Rsum (map (g m) (seq (S s) n)))).
      + apply Hcv. lia.
      + apply IH. intros k Hk. apply Hcv. lia. }
  intros Hcv. apply Hgen. intros k Hk. apply Hcv. lia.
Qed.

Lemma nth_map_seq {A} (g : nat -> A) n k d : (k < n)%nat -> nth k (map g (seq 0 n)) d = g k.
Proof.
  intros Hk. apply nth_lookup_Some. rewrite list_lookup_fmap.
  by rewrite lookup_seq_lt.
Qed.

Lemma Rentry_Rmat n1 n2 f i j :
  (i < n1)%nat -> (j < n2)%nat -> Rentry (Rmat n1 n2 f) i j = f i j.
Proof.
  intros Hi Hj. unfold Rentry, Rmat.
  rewrite (nth_map_seq _ n1 i) by done. by rewrite nth_map_seq.
Qed.

Lemma Rmat_shape n1 n2 f :
  length (Rmat n1 n2 f) = n1 /\ Forall (fun row => length row = n2) (Rmat n1 n2 f).
Proof.
  unfold Rmat. split; [by rewrite length_map, length_seq|].
  apply Forall_map, Forall_forall. intros i _. simpl.
  by rewrite length_map, length_seq.
Qed.

Lemma Rsum_upto_nonneg n f : (forall k, (k < n)%nat -> 0 <= f k) -> 0 <= Rsum_upto n f.
Proof.
  unfold Rsum_upto.
  assert (forall s, (forall k, (s <= k < s + n)%nat -> 0 <= f k) ->
                    0 <= Rsum (map f (seq s n))) as Hgen.
  { induction n as [|n IH]; intros s Hf; simpl; [lra|].
    assert (0 <= f s) by (apply Hf; lia).
    assert (0 <= Rsum (map f (seq (S s) n))) by (apply IH; intros; apply Hf; lia).
    unfold Rsum in *. lra. }
  intros Hf. apply Hgen. intros k Hk. apply Hf. lia.
Qed.

Lemma Rsum_upto_term n f k :
  (forall i, (i < n)%nat -> 0 <= f i) -> (k < n)%nat -> f k <= Rsum_upto n f.
Proof.
  unfold Rsum_upto.
  assert (forall s, (forall i, (s <= i < s + n)%nat -> 0 <= f i) ->
            (s <= k < s + n)%nat -> f k <= Rsum (map f (seq s n))) as Hgen.
  { induction n as [|n IH]; intros s Hf Hk; simpl; [lia|].
    assert (0 <= f s) by (apply Hf; lia).
    assert (0 <= Rsum (map f (seq (S s) n))).
    { clear IH Hk. revert s Hf H. induction n as [|n IHn]; intros s Hf Hs; simpl; [lra|].
      assert (0 <= f (S s)) by (apply Hf; lia).
      assert (0 <= Rsum (map f (seq (S (S s)) n))); [|unfold Rsum in *; lra].
      apply IHn; [intros; apply Hf; lia|done]. }
    destruct (decide (k = s)) as [->|Hne].
    - unfold Rsum in *. lra.
    - assert (f k <= Rsum (map f (seq (S s) n))); [|unfold Rsum in *; lra].
      apply IH; [intros; apply Hf; lia|lia]. }
  intros Hf Hk. apply Hgen; [intros; apply Hf; lia|lia].
Qed.

Lemma Rsum_upto_scale n c f : Rsum_upto n (fun k => c * f k) = c * Rsum_upto n f.
Proof.
  unfold Rsum_upto. generalize 0%nat.
  induction n as [|n IH]; intros s; simpl; [lra|]. rewrite IH. lra.
Qed.

Lemma Rsum_upto_nth l : Rsum_upto (length l) (fun k => nth k l 0) = Rsum l.
Proof.
  unfold Rsum_upto. f_equal.
  apply list_eq. intros k. rewrite list_lookup_fmap.
  destruct (decide (k < length l)%nat) as [Hk|Hk].
  - rewrite lookup_seq_lt by done. simpl.
    destruct (lookup_lt_is_Some_2 l k Hk) as [x Hx]. rewrite Hx. f_equal.
    by apply nth_lookup_Some.
  - rewrite lookup_seq_ge by lia. by rewrite lookup_ge_None_2 by lia.
Qed.

Lemma nth_nonneg l k : Forall (fun x => 0 <= x) l -> 0 <= nth k l 0.
Proof.
  intros Hl. destruct (decide (k < length l)%nat) as [Hk|Hk].
  - rewrite Forall_forall in Hl. apply Hl. apply list_elem_of_In, nth_In. lia.
  - rewrite nth_overflow by lia. lra.
Qed.

Lemma product_coupling a b :
  Forall (fun x => 0 <= x) a -> Forall (fun y => 0 <= y) b ->
  Rsum a = 1 -> Rsum b = 1 ->
  is_coupling a b (Rmat (length a) (length b) (fun i j => nth i a 0 * nth j b 0)).
Proof.
  intros Ha Hb Hsa Hsb.
  destruct (Rmat_shape (length a) (length b) (fun i j => nth i a 0 * nth j b 0))
    as [Hl Hw].
  split; [done|]. split; [done|]. split; [|split].
  - intros i j Hi Hj. rewrite Rentry_Rmat by done.
    apply Rmult_le_pos; by apply nth_nonneg.
  - intros i Hi.
    rewrite (Rsum_upto_ext _ _ (fun j => nth i a 0 * nth j b 0)).
    + rewrite Rsum_upto_scale, Rsum_upto_nth, Hsb. lra.
    + intros j Hj. by apply Rentry_Rmat.
  - intros j Hj.
    rewrite (Rsum_upto_ext _ _ (fun i => nth j b 0 * nth i a 0)).
    + rewrite Rsum_upto_scale, Rsum_upto_nth, Hsa. lra.
    + intros i Hi. rewrite Rentry_Rmat by done. lra.
Qed.

Lemma coupling_entry_le_1 a b P i j :
  Forall (fun x => 0 <= x) a -> Rsum a = 1 ->
  is_coupling a b P -> (i < length a)%nat -> (j < length b)%nat ->
  0 <= Rentry P i j <= 1.
Proof.
  intros Ha Hsa (_ & _ & Hnn & Hrow & _) Hi Hj. split; [by apply Hnn|].
  transitivity (nth i a 0).
  - rewrite <- Hrow by done.
    apply (Rsum_upto_term (length b) (fun j => Rentry P i j)); [|done].
    intros j' Hj'. by apply Hnn.
  - rewrite <- Hsa, <- Rsum_upto_nth.
    apply (Rsum_upto_term (length a) (fun k => nth k a 0)); [|done].
    intros k _. by apply nth_nonneg.
Qed.

Lemma transport_cost_nonneg a b D P :
  cost_matrix (length a) (length b) D -> is_coupling a b P ->
  0 <= transport_cost (length a) (length b) D P.
Proof.
  intros (HlD & HwD & HnD) (_ & _ & Hnn & _ & _). unfold transport_cost.
  apply Rsum_upto_nonneg. intros i Hi. apply Rsum_upto_nonneg. intros j Hj.
  apply Rmult_le_pos; [by apply Hnn|].
  unfold Rentry. apply nth_nonneg.
  destruct (decide (i < length D)%nat) as [HiD|HiD].
  - rewrite Forall_forall in HnD. apply HnD. apply list_elem_of_In, nth_In. lia.
  - rewrite nth_overflow by lia. constructor.
Qed.

Lemma least_cost_exists a b D :
  Forall (fun x => 0 <= x) a -> Forall (fun y => 0 <= y) b ->
  Rsum a = 1 -> Rsum b = 1 ->
  cost_matrix (length a) (length b) D ->
  exists c,
    (forall Q, is_coupling a b Q -> c <= transport_cost (length a) (length b) D Q) /\
    forall k : nat, exists Q,
      is_coupling a b Q /\ transport_cost (length a) (length b) D Q < c + / INR (S k).
Proof.
  intros Ha Hb Hsa Hsb HD.
  set (E := fun x => exists Q, is_coupling a b Q /\
                        x = - transport_cost (length a) (length b) D Q).
  destruct (completeness E) as [L [Hub Hleast]].
  { exists 0. intros x (Q & HQ & ->).
    pose proof (transport_cost_nonneg a b D Q HD HQ). lra. }
  { eexists. eexists. split; [by apply product_coupling|done]. }
  exists (- L). split.
  - intros Q HQ.
    assert (- transport_cost (length a) (length b) D Q <= L); [|lra].
    apply Hub. by exists Q.
  - intros k.
    assert (0 < / INR (S k)) as Hpos by (apply Rinv_0_lt_compat, lt_0_INR; lia).
    destruct (classic (exists Q, is_coupling a b Q /\
                transport_cost (length a) (length b) D Q < - L + / INR (S k)))
      as [|Hno]; [done|]. exfalso.
    assert (L <= L - / INR (S k)); [|lra].
    apply Hleast. intros x (Q & HQ & ->).
    destruct (Rlt_dec (transport_cost (length a) (length b) D Q) (- L + / INR (S k)))
      as [Hlt|Hge]; [|lra].
    exfalso. apply Hno. by exists Q.
Qed.

Theorem optimal_coupling_exists a b D :
  Forall (fun x => 0 <= x) a -> Forall (fun y => 0 <= y) b ->
  Rsum a = 1 -> Rsum b = 1 ->
  cost_matrix (length a) (length b) D ->
  exists P, optimal_coupling a b D P.
Proof.
  intros Ha Hb Hsa Hsb HD.
  destruct (least_cost_exists a b D Ha Hb Hsa Hsb HD) as (c & Hlow & Hseq).
  destruct (ClassicalChoice.choice
              (fun (k : nat) Q => is_coupling a b Q /\
                 transport_cost (length a) (length b) D Q < c + / INR (S k)) Hseq)
    as [U HU].
  set (n1 := length a) in *. set (n2 := length b) in *.
  set (u := fun (m : nat) (k : nat * nat) =>
              if decide ((k.1 < n1)%nat /\ (k.2 < n2)%nat)
              then Rentry (U m) k.1 k.2 else 0).
  destruct (bounded_family_subsequence
              (list_prod (seq 0 n1) (seq 0 n2)) u) as (phi & l & Hphi & Hcv).
  { intros m [i j]. unfold u. simpl. destruct (decide _) as [[Hi Hj]|_]; [|lra].
    destruct (HU m) as [HQ _]. by apply (coupling_entry_le_1 a b). }
  assert (forall i j, (i < n1)%nat -> (j < n2)%nat ->
            Un_cv (fun m => Rentry (U (phi m)) i j) (l (i, j))) as Hentry.
  { intros i j Hi Hj.
    assert ((i, j) ∈ list_prod (seq 0 n1) (seq 0 n2)) as Hin.
    { apply list_elem_of_In, in_prod; apply in_seq; lia. }
    specialize (Hcv _ Hin).
    assert (forall m, u (phi m) (i, j) = Rentry (U (phi m)) i j) as Heq.
    { intros m. unfold u. cbn [fst snd]. by rewrite decide_True. }
    intros eps Heps. destruct (Hcv eps Heps) as [N HN].
    exists N. intros n Hn. rewrite <- Heq. by apply HN. }
  set (P := Rmat n1 n2 (fun i j => l (i, j))).
  destruct (Rmat_shape n1 n2 (fun i j => l (i, j))) as [HlP HwP].
  assert (is_coupling a b P) as HP.
  { split; [done|]. split; [done|]. split; [|split].
    - intros i j Hi Hj. unfold P. rewrite Rentry_Rmat by done.
      apply (Un_cv_nonneg (fun m => Rentry (U (phi m)) i j)); [|by apply Hentry].
      intros m. destruct (HU (phi m)) as [(_ & _ & Hnn & _) _]. by apply Hnn.
    - intros i Hi.
      apply (UL_sequence (fun m => Rsum_upto n2 (fun j => Rentry (U (phi m)) i j))).
      + rewrite (Rsum_upto_ext _ _ (fun j => l (i, j))).
        * apply (Un_cv_Rsum_upto n2 (fun m j => Rentry (U (phi m)) i j)).
          intros j Hj. by apply Hentry.
        * intros j Hj. unfold P. by rewrite Rentry_Rmat.
      + intros eps Heps. exists 0%nat. intros m _.
        destruct (HU (phi m)) as [(_ & _ & _ & Hrow & _) _].
        rewrite Hrow by done. unfold R_dist. rewrite Rminus_diag, Rabs_R0. lra.
    - intros j Hj.
      apply (UL_sequence (fun m => Rsum_upto n1 (fun i => Rentry (U (phi m)) i j))).
      + rewrite (Rsum_upto_ext _ _ (fun i => l (i, j))).
        * apply (Un_cv_Rsum_upto n1 (fun m i => Rentry (U (phi m)) i j)).
          intros i Hi. by apply Hentry.
        * intros i Hi. unfold P. by rewrite Rentry_Rmat.
      + intros eps Heps. exists 0%nat. intros m _.
        destruct (HU (phi m)) as [(_ & _ & _ & _ & Hcol) _].
        rewrite Hcol by done. unfold R_dist. rewrite Rminus_diag, Rabs_R0. lra. }
  exists P. split; [done|]. intros Q HQ. fold n1 n2.
  assert (transport_cost n1 n2 D P = c) as ->; [|by apply Hlow].
  apply (UL_sequence (fun m => transport_cost n1 n2 D (U (phi m)))).
  - unfold transport_cost.
    rewrite (Rsum_upto_ext n1 _
               (fun i => Rsum_upto n2 (fun j => l (i, j) * Rentry D i j))).
    + apply (Un_cv_Rsum_upto n1
               (fun m i => Rsum_upto n2 (fun j => Rentry (U (phi m)) i j * Rentry D i j))).
      intros i Hi.
      apply (Un_cv_Rsum_upto n2 (fun m j => Rentry (U (phi m)) i j * Rentry D i j)).
      intros j Hj.
      apply (CV_mult (fun m => Rentry (U (phi m)) i j) (fun _ => Rentry D i j)).
      * by apply Hentry.
      * apply Un_cv_const_seq.
    + intros i Hi. apply Rsum_upto_ext. intros j Hj. unfold P.
      by rewrite Rentry_Rmat.
  - apply (Un_cv_squeeze _ c phi Hphi). intros m.
    destruct (HU (phi m)) as [HUm Hlt]. split; [by apply Hlow|done].
Qed.

Lemma map_Real_inj l k : map Real l = map Real k -> l = k.
Proof.
  revert k. induction l as [|x l IH]; intros [|y k] Heq; simpl in *; try done.
  injection Heq as -> Heq. f_equal. by apply IH.
Qed.

Lemma map_map_Real_inj l k : map (map Real) l = map (map Real) k -> l = k.
Proof.
  revert k. induction l as [|x l IH]; intros [|y k] Heq; simpl in *; try done.
  injection Heq as Hxy Heq. f_equal; [by apply map_Real_inj|by apply IH].
Qed.

Lemma reference_emd_returns a b D :
  Forall (fun x => 0 <= x) a -> Forall (fun y => 0 <= y) b ->
  Rsum a = 1 -> Rsum b = 1 ->
  cost_matrix (length a) (length b) D ->
  exists P,
    reference_emd (map Real a) (map Real b) (of_reals (length b) D)
    = Ok (of_reals (length b) P) /\
    optimal_coupling a b D P.
Proof.
  intros Ha Hb Hsa Hsb HD. unfold reference_emd.
  destruct (excluded_middle_informative _) as [H|Hno].
  - destruct (constructive_indefinite_description _ H)
      as (P & ar & br & Dr & Hea & Heb & HeD & Hopt).
    simpl. exists P. split; [done|].
    apply map_Real_inj in Hea as <-. apply map_Real_inj in Heb as <-.
    simpl in HeD. apply map_map_Real_inj in HeD as <-. done.
  - exfalso. apply Hno.
    destruct (optimal_coupling_exists a b D Ha Hb Hsa Hsb HD) as [P HP].
    by exists P, a, b, D.
Qed.




(** With a solver that does not fail, as the reference solver, the function
    returns: the first alternative of the theorem is the solver's, not the
    function's. *)
Lemma match_spots_transport_returns matcher d (Xr Yr : list (list R)) :
  (2 <= length Xr)%nat -> (2 <= length Yr)%nat ->
  Forall (fun row => length row = d) Xr -> Forall (fun row => length row = d) Yr ->
  NoDup Xr -> NoDup Yr ->
  exists P,
    match_spots_using_spatial_heuristic reference_emd matcher
      (of_reals d Xr) (of_reals d Yr) true = Ok (of_reals (length Yr) P) /\
    optimal_coupling (replicate (length Xr) (1 / INR (length Xr)))
      (replicate (length Yr) (1 / INR (length Yr))) (normalized_distances d Xr Yr) P.
Proof.
  intros HnX HnY HwX HwY HdX HdY.
  set (n1 := length Xr). set (n2 := length Yr).
  assert (INR n1 <> 0) as Hn1 by (apply not_0_INR; unfold n1; lia).
  assert (INR n2 <> 0) as Hn2 by (apply not_0_INR; unfold n2; lia).
  assert (0 < INR n1) as Hp1 by (apply lt_0_INR; unfold n1; lia).
  assert (0 < INR n2) as Hp2 by (apply lt_0_INR; unfold n2; lia).
  assert (0 < 1 / INR n1) as Hq1 by (apply Rdiv_lt_0_compat; lra).
  assert (0 < 1 / INR n2) as Hq2 by (apply Rdiv_lt_0_compat; lra).
  rewrite (match_spots_transport_inputs reference_emd matcher d Xr Yr) by done.
  fold n1 n2.
  destruct (reference_emd_returns (replicate n1 (1 / INR n1)) (replicate n2 (1 / INR n2))
              (normalized_distances d Xr Yr)) as (P & HP & Hopt).
  - apply Forall_replicate. lra.
  - apply Forall_replicate. lra.
  - rewrite Rsum_replicate. by field.
  - rewrite Rsum_replicate. by field.
  - rewrite !length_replicate. apply normalized_distances_cost_matrix.
  - rewrite length_replicate in HP. by exists P.
Qed.



(** * Further properties *)

(** ** Normalisation *)

Lemma centroid_length d rows :
  Forall (fun row => length row = d) rows -> length (centroid d rows) = d.
Proof. intros Hwf. unfold centroid. by rewrite length_map, Rcolsum_length. Qed.

Lemma normalized_affine d rows :
  normalized d rows
  = affine (/ min_pairwise_distance rows)
      (map (fun m => - m / min_pairwise_distance rows) (centroid d rows)) rows.
Proof.
  unfold normalized, centered, affine, affine_row. rewrite map_map.
  apply map_ext. intros row. rewrite zip_with_fmap_r.
  generalize (centroid d rows). intros mu. revert mu.
  induction row as [|x row IH]; intros [|m mu]; simpl; try done.
  rewrite IH. f_equal. unfold Rdiv. lra.
Qed.

Lemma min_pairwise_distance_normalized d (Xr : list (list R)) :
  (2 <= length Xr)%nat ->
  Forall (fun row => length row = d) Xr ->
  NoDup Xr ->
  min_pairwise_distance (normalized d Xr) = 1.
Proof.
  intros Hn Hwf Hnd.
  pose proof (min_pairwise_distance_pos d Xr Hn Hwf Hnd) as Hpos.
  rewrite normalized_affine.
  rewrite min_pairwise_distance_affine.
  - field. lra.
  - by apply Rinv_0_lt_compat.
  - rewrite length_map, centroid_length by done. done.
Qed.

(** X1: the normalised points of at least two pairwise distinct points have
    least pairwise distance exactly one: the function rescales to unit
    spacing. *)
Theorem normalized_min_distance d (Xr : list (list R)) :
  (2 <= length Xr)%nat ->
  Forall (fun row => length row = d) Xr ->
  NoDup Xr ->
  norm_and_center_coordinates (of_reals d Xr) = Ok (of_reals d (normalized d Xr)) /\
  min_pairwise_distance (normalized d Xr) = 1.
Proof.
  intros Hn Hwf Hnd. split; [by apply norm_real_pos|].
  by apply (min_pairwise_distance_normalized d).
Qed.

Lemma centroid_normalized d rows :
  rows <> [] -> Forall (fun row => length row = d) rows ->
  centroid d (normalized d rows) = replicate d 0.
Proof.
  intros Hne Hwf. unfold centroid, normalized.
  rewrite Rcolsum_div, Rcolsum_centered by done.
  rewrite !map_map, fmap_replicate. f_equal. unfold Rdiv. lra.
Qed.

Lemma normalized_wf d rows :
  Forall (fun row => length row = d) rows ->
  Forall (fun row => length row = d) (normalized d rows).
Proof.
  intros Hwf. unfold normalized, centered. rewrite !Forall_map.
  eapply Forall_impl; [exact Hwf|]. intros row Hrow. simpl in *.
  rewrite length_map, length_zip_with, centroid_length by done. lia.
Qed.

Lemma zip_with_minus_zero row d :
  length row = d -> zip_with Rminus row (replicate d 0) = row.
Proof.
  intros <-. induction row as [|x row IH]; simpl; [done|]. rewrite IH. f_equal. lra.
Qed.

(** X2: on at least two pairwise distinct points normalising twice is
    normalising once: the result is a fixed point of
    [norm_and_center_coordinates]. *)
Theorem norm_idempotent d (Xr : list (list R)) :
  (2 <= length Xr)%nat ->
  Forall (fun row => length row = d) Xr ->
  NoDup Xr ->
  exists Z,
    norm_and_center_coordinates (of_reals d Xr) = Ok Z /\
    norm_and_center_coordinates Z = Ok Z.
Proof.
  intros Hn Hwf Hnd.
  pose proof (norm_real_pos d Xr Hn Hwf Hnd) as Hnorm.
  pose proof (min_pairwise_distance_normalized d Xr Hn Hwf Hnd) as Hone.
  exists (of_reals d (normalized d Xr)). split; [done|].
  assert (Xr <> []) as Hne by (intros ->; simpl in Hn; lia).
  rewrite norm_real by (by rewrite normalized_length).
  rewrite Hone, div_scalar_real by lra. do 2 f_equal.
  unfold centered. rewrite centroid_normalized by done.
  pose proof (normalized_wf d Xr Hwf) as HwN. clear Hnorm Hone.
  revert HwN. generalize (normalized d Xr). intros N HwN.
  induction HwN as [|row rows Hrow _ IH]; [done|].
  simpl. rewrite IH. f_equal. rewrite zip_with_minus_zero by done.
  rewrite <- (map_id row) at 2. apply map_ext. intros x. lra.
Qed.

Lemma normalized_min_distance_witness :
  norm_and_center_coordinates (of_reals 1 [[0]; [2]])
  = Ok (of_reals 1 (normalized 1 [[0]; [2]])) /\
  min_pairwise_distance (normalized 1 [[0]; [2]]) = 1.
Proof.
  apply (normalized_min_distance 1 [[0]; [2]]).
  - simpl. lia.
  - repeat constructor.
  - apply NoDup_cons. split; [|apply NoDup_singleton].
    rewrite list_elem_of_singleton. intros [= H]. lra.
Defined.

Lemma norm_idempotent_witness :
  exists Z,
    norm_and_center_coordinates (of_reals 1 [[0]; [2]]) = Ok Z /\
    norm_and_center_coordinates Z = Ok Z.
Proof.
  apply (norm_idempotent 1 [[0]; [2]]).
  - simpl. lia.
  - repeat constructor.
  - apply NoDup_cons. split; [|apply NoDup_singleton].
    rewrite list_elem_of_singleton. intros [= H]. lra.
Defined.

(** ** The matching as a coupling *)

Lemma Rsum_upto_plus n f g :
  Rsum_upto n (fun k => f k + g k) = Rsum_upto n f + Rsum_upto n g.
Proof.
  unfold Rsum_upto. generalize 0%nat.
  induction n as [|n IH]; intros s; simpl; [lra|]. rewrite IH. lra.
Qed.

Lemma Rsum_upto_indicator n (P : nat -> Prop) `{!forall k, Decision (P k)} x :
  Rsum_upto n (fun k => if decide (P k) then x else 0)
  = INR (length (filter P (seq 0 n))) * x.
Proof.
  unfold Rsum_upto. generalize 0%nat.
  induction n as [|n IH]; intros s; simpl; [lra|].
  rewrite IH. rewrite filter_cons. destruct (decide (P s)).
  - change (length (s :: filter P (seq (S s) n))) with (S (length (filter P (seq (S s) n)))).
    rewrite S_INR. lra.
  - lra.
Qed.

Lemma count_unmatched (c : list nat) n :
  NoDup c -> Forall (fun j => (j < n)%nat) c ->
  length (filter (fun j => j ∉ c) (seq 0 n)) = (n - length c)%nat.
Proof.
  intros Hnd Hc.
  assert (length (filter (fun j => j ∈ c) (seq 0 n)) = length c) as Hin.
  { apply Permutation_length, NoDup_Permutation.
    - apply NoDup_filter, NoDup_seq.
    - done.
    - intros j. rewrite list_elem_of_filter, elem_of_seq. split; [tauto|].
      intros Hj. split; [done|]. rewrite Forall_forall in Hc. specialize (Hc j Hj). lia. }
  pose proof (filter_app_complement (fun j => j ∈ c) (seq 0 n)) as Hperm.
  apply Permutation_length in Hperm. rewrite length_app, length_seq in Hperm.
  lia.
Qed.

Lemma count_matched_in_row (r c : list nat) n i :
  NoDup r -> length r = length c -> Forall (fun j => (j < n)%nat) c ->
  length (filter (fun j => (i, j) ∈ zip r c) (seq 0 n))
  = if decide (i ∈ r) then 1%nat else 0%nat.
Proof.
  intros Hnd Hlen Hc. destruct (decide (i ∈ r)) as [Hi|Hi].
  - destruct (zip_matched_l r c i Hlen Hi) as [j0 Hj0].
    change 1%nat with (length [j0]).
    apply Permutation_length, NoDup_Permutation.
    + apply NoDup_filter, NoDup_seq.
    + apply NoDup_singleton.
    + intros j. rewrite list_elem_of_filter, elem_of_seq, list_elem_of_singleton. split.
      * intros [Hj _]. by apply (zip_functional_l r c i j j0).
      * intros ->. split; [done|]. rewrite Forall_forall in Hc.
        specialize (Hc j0 (elem_of_zip_r _ _ _ _ Hj0)). lia.
  - apply length_zero_iff_nil. apply list_eq. intros k.
    rewrite lookup_nil. apply eq_None_not_Some. intros [j Hj].
    apply list_elem_of_lookup_2, list_elem_of_filter in Hj as [Hj _].
    apply Hi. by eapply elem_of_zip_l.
Qed.

Lemma count_matched_in_col (r c : list nat) n j :
  NoDup c -> length r = length c -> Forall (fun i => (i < n)%nat) r ->
  length (filter (fun i => (i, j) ∈ zip r c) (seq 0 n))
  = if decide (j ∈ c) then 1%nat else 0%nat.
Proof.
  intros Hnd Hlen Hr. destruct (decide (j ∈ c)) as [Hj|Hj].
  - destruct (zip_matched_r r c j Hlen Hj) as [i0 Hi0].
    change 1%nat with (length [i0]).
    apply Permutation_length, NoDup_Permutation.
    + apply NoDup_filter, NoDup_seq.
    + apply NoDup_singleton.
    + intros i. rewrite list_elem_of_filter, elem_of_seq, list_elem_of_singleton. split.
      * intros [Hi _]. by apply (zip_functional_r r c i i0 j).
      * intros ->. split; [done|]. rewrite Forall_forall in Hr.
        specialize (Hr i0 (elem_of_zip_l _ _ _ _ Hi0)). lia.
  - apply length_zero_iff_nil. apply list_eq. intros k.
    rewrite lookup_nil. apply eq_None_not_Some. intros [i Hi].
    apply list_elem_of_lookup_2, list_elem_of_filter in Hi as [Hi _].
    apply Hj. by eapply elem_of_zip_r.
Qed.

Lemma coupling_value_row n1 n2 r c i :
  (0 < n1)%nat -> (0 < n2)%nat -> full_matching n1 n2 r c -> (i < n1)%nat ->
  Rsum_upto n2 (fun j => coupling_value n1 n2 r c i j) = 1 / INR n1.
Proof.
  intros H1 H2 (Hlr & Hlc & Hndr & Hndc & Hr & Hc) Hi.
  assert (0 < INR n1) as Hp1 by (by apply lt_0_INR).
  assert (0 < INR n2) as Hp2 by (by apply lt_0_INR).
  destruct (lt_eq_lt_dec n1 n2) as [[Hlt|Heq]|Hgt].
  - rewrite Nat.min_l in Hlr, Hlc by lia.
    assert (i ∈ r) as Hir by (by apply (full_range r n1)).
    rewrite (Rsum_upto_ext n2 _
               (fun j => (if decide (j ∉ c) then 1 / (INR n1 * INR n2) else 0)
                         + (if decide ((i, j) ∈ zip r c) then 1 / INR n2 else 0))).
    + rewrite Rsum_upto_plus, !Rsum_upto_indicator.
      rewrite count_unmatched, count_matched_in_row by (done || congruence).
      rewrite decide_True by done. rewrite Hlc, minus_INR by lia. simpl. field. lra.
    + intros j Hj. unfold coupling_value. rewrite Nat.max_r by lia.
      assert ((i, j) ∈ zip r c -> j ∈ c) as Hz by apply elem_of_zip_r.
      repeat destruct (decide _); try lra; try tauto; lia.
  - subst n2. rewrite Nat.min_id in Hlr, Hlc.
    assert (i ∈ r) as Hir by (by apply (full_range r n1)).
    rewrite (Rsum_upto_ext n1 _
               (fun j => if decide ((i, j) ∈ zip r c) then 1 / INR n1 else 0)).
    + rewrite Rsum_upto_indicator, count_matched_in_row by (done || congruence).
      rewrite decide_True by done. simpl. lra.
    + intros j Hj. unfold coupling_value. rewrite Nat.max_id.
      repeat destruct (decide _); try lra; try tauto; lia.
  - rewrite Nat.min_r in Hlr, Hlc by lia.
    destruct (decide (i ∈ r)) as [Hir|Hir].
    + rewrite (Rsum_upto_ext n2 _
                 (fun j => if decide ((i, j) ∈ zip r c) then 1 / INR n1 else 0)).
      * rewrite Rsum_upto_indicator, count_matched_in_row by (done || congruence).
        rewrite decide_True by done. simpl. lra.
      * intros j Hj. unfold coupling_value. rewrite Nat.max_l by lia.
        repeat destruct (decide _); try lra; try tauto; lia.
    + rewrite (Rsum_upto_ext n2 _ (fun _ => 1 / (INR n1 * INR n2))).
      * rewrite Rsum_upto_const. field. lra.
      * intros j Hj. unfold coupling_value.
        repeat destruct (decide _); try lra; try tauto; lia.
Qed.

Lemma coupling_value_col n1 n2 r c j :
  (0 < n1)%nat -> (0 < n2)%nat -> full_matching n1 n2 r c -> (j < n2)%nat ->
  Rsum_upto n1 (fun i => coupling_value n1 n2 r c i j) = 1 / INR n2.
Proof.
  intros H1 H2 (Hlr & Hlc & Hndr & Hndc & Hr & Hc) Hj.
  assert (0 < INR n1) as Hp1 by (by apply lt_0_INR).
  assert (0 < INR n2) as Hp2 by (by apply lt_0_INR).
  destruct (lt_eq_lt_dec n1 n2) as [[Hlt|Heq]|Hgt].
  - rewrite Nat.min_l in Hlr, Hlc by lia.
    destruct (decide (j ∈ c)) as [Hjc|Hjc].
    + rewrite (Rsum_upto_ext n1 _
                 (fun i => if decide ((i, j) ∈ zip r c) then 1 / INR n2 else 0)).
      * rewrite Rsum_upto_indicator, count_matched_in_col by (done || congruence).
        rewrite decide_True by done. simpl. lra.
      * intros i Hi. unfold coupling_value. rewrite Nat.max_r by lia.
        repeat destruct (decide _); try lra; try tauto; lia.
    + rewrite (Rsum_upto_ext n1 _ (fun _ => 1 / (INR n1 * INR n2))).
      * rewrite Rsum_upto_const. field. lra.
      * intros i Hi. unfold coupling_value.
        repeat destruct (decide _); try lra; try tauto; lia.
  - subst n2. rewrite Nat.min_id in Hlr, Hlc.
    assert (j ∈ c) as Hjc by (by apply (full_range c n1)).
    rewrite (Rsum_upto_ext n1 _
               (fun i => if decide ((i, j) ∈ zip r c) then 1 / INR n1 else 0)).
    + rewrite Rsum_upto_indicator, count_matched_in_col by (done || congruence).
      rewrite decide_True by done. simpl. lra.
    + intros i Hi. unfold coupling_value. rewrite Nat.max_id.
      repeat destruct (decide _); try lra; try tauto; lia.
  - rewrite Nat.min_r in Hlr, Hlc by lia.
    assert (j ∈ c) as Hjc by (by apply (full_range c n2)).
    rewrite (Rsum_upto_ext n1 _
               (fun i => (if decide (i ∉ r) then 1 / (INR n1 * INR n2) else 0)
                         + (if decide ((i, j) ∈ zip r c) then 1 / INR n1 else 0))).
    + rewrite Rsum_upto_plus, !Rsum_upto_indicator.
      rewrite count_unmatched, count_matched_in_col by (done || congruence).
      rewrite decide_True by done. rewrite Hlr, minus_INR by lia. simpl. field. lra.
    + intros i Hi. unfold coupling_value. rewrite Nat.max_l by lia.
      assert ((i, j) ∈ zip r c -> i ∈ r) as Hz by apply elem_of_zip_l.
      repeat destruct (decide _); try lra; try tauto; lia.
Qed.

Lemma coupling_value_nonneg n1 n2 r c i j :
  (0 < n1)%nat -> (0 < n2)%nat -> 0 <= coupling_value n1 n2 r c i j.
Proof.
  intros H1 H2.
  assert (0 < INR n1) as Hp1 by (by apply lt_0_INR).
  assert (0 < INR n2) as Hp2 by (by apply lt_0_INR).
  assert (0 < INR (Nat.max n1 n2)) as Hp3 by (apply lt_0_INR; lia).
  unfold coupling_value.
  repeat destruct (decide _); try lra; apply Rlt_le, Rdiv_lt_0_compat; try lra; nra.
Qed.

Lemma setitem_col_mask_wf a mask v a' :
  wf a -> setitem_col_mask a mask v = Ok a' -> wf a'.
Proof.
  intros Hwf. unfold setitem_col_mask. destruct (decide _) as [Hlen|]; [|done].
  intros [= <-]. unfold wf in *. cbn [data shape1]. apply Forall_map.
  eapply Forall_impl; [exact Hwf|]. intros row Hrow. simpl in *.
  rewrite length_zip_with. lia.
Qed.

Lemma setitem_row_mask_wf a mask v a' :
  wf a -> setitem_row_mask a mask v = Ok a' -> wf a'.
Proof.
  intros Hwf. unfold setitem_row_mask. destruct (decide _) as [Hlen|]; [|done].
  intros [= <-]. unfold wf in *. cbn [data shape1].
  apply Forall_forall. intros row Hin.
  apply list_elem_of_lookup in Hin as [k Hk]. rewrite lookup_zip_with in Hk.
  destruct (mask !! k) as [m|]; [|done]. simpl in Hk.
  destruct (data a !! k) as [row0|] eqn:Hrow0; [|done]. simpl in Hk.
  injection Hk as <-. rewrite Forall_lookup in Hwf. specialize (Hwf _ _ Hrow0).
  destruct m; [by rewrite length_map|done].
Qed.

Lemma match_spots_matching_wf emd matcher X Y r c pi :
  full_matching (shape0 X) (shape0 Y) r c ->
  (forall D, normalized_cost X Y = Ok D -> matcher (csr_matrix D) = Ok (r, c)) ->
  match_spots_using_spatial_heuristic emd matcher X Y false = Ok pi -> wf pi.
Proof.
  intros (Hlr & Hlc & _ & _ & Hr & Hc) Hm. rewrite match_spots_unfold.
  destruct (normalized_cost X Y) as [D|] eqn:HD; [|done].
  cbn [mbind result_bind]. rewrite (Hm D eq_refl). cbn [mbind result_bind fst snd].
  destruct (py_truediv 1 (Nat.max (shape0 X) (shape0 Y))) as [w|]; [|done].
  cbn [mbind result_bind].
  destruct (setitem_pairs_zeros (shape0 X) (shape0 Y) r c w)
    as (a & Ha & Hwf & _); [congruence|done|done|].
  rewrite Ha. cbn [mbind result_bind].
  destruct (shape0 X <? shape0 Y)%nat.
  - destruct (py_truediv 1 (shape0 X * shape0 Y)) as [u|]; [|done].
    cbn [mbind result_bind]. by apply setitem_col_mask_wf.
  - destruct (shape0 Y <? shape0 X)%nat.
    + destruct (py_truediv 1 (shape0 X * shape0 Y)) as [u|]; [|done].
      cbn [mbind result_bind]. by apply setitem_row_mask_wf.
    + by intros [= <-].
Qed.

Lemma ndarray_from_entries a n1 n2 (f : nat -> nat -> R) :
  wf a -> shape0 a = n1 -> shape1 a = n2 ->
  (forall i j, (i < n1)%nat -> (j < n2)%nat -> entry a i j = Some (Real (f i j))) ->
  a = of_reals n2 (Rmat n1 n2 f).
Proof.
  destruct a as [k rows]. unfold wf, shape0, entry, of_reals. cbn [data shape1].
  intros Hwf <- -> Hent. f_equal.
  apply list_eq. intros i. unfold Rmat. rewrite !list_lookup_fmap.
  destruct (decide (i < length rows)%nat) as [Hi|Hi].
  - rewrite lookup_seq_lt by done. simpl.
    destruct (lookup_lt_is_Some_2 rows i Hi) as [row Hrow]. rewrite Hrow. f_equal.
    assert (length row = n2) as Hlen.
    { rewrite Forall_lookup in Hwf. by eapply Hwf. }
    apply list_eq. intros j. rewrite !list_lookup_fmap.
    destruct (decide (j < n2)%nat) as [Hj|Hj].
    + rewrite lookup_seq_lt by done. simpl.
      specialize (Hent i j Hi Hj). rewrite Hrow in Hent. exact Hent.
    + rewrite lookup_seq_ge by lia. by rewrite lookup_ge_None_2 by lia.
  - rewrite lookup_seq_ge by lia. by rewrite lookup_ge_None_2 by lia.
Qed.

(** X3: in matching mode the returned matrix is a coupling of the two
    uniform distributions, whatever the sizes: no entry is negative, every
    row sums to [1 / n1], every column to [1 / n2], and the whole matrix
    to one. *)
Theorem match_spots_matching_coupling emd matcher X Y r c :
  shape1 X = shape1 Y ->
  (2 <= shape0 X)%nat -> (2 <= shape0 Y)%nat ->
  (forall D, normalized_cost X Y = Ok D -> matcher (csr_matrix D) = Ok (r, c)) ->
  full_matching (shape0 X) (shape0 Y) r c ->
  let n1 := shape0 X in
  let n2 := shape0 Y in
  exists P,
    match_spots_using_spatial_heuristic emd matcher X Y false = Ok (of_reals n2 P) /\
    is_coupling (replicate n1 (1 / INR n1)) (replicate n2 (1 / INR n2)) P /\
    Rsum_upto n1 (fun i => Rsum_upto n2 (fun j => Rentry P i j)) = 1.
Proof.
  intros Hd HX HY Hm Hfull n1 n2.
  destruct (match_spots_matching emd matcher X Y r c Hd HX HY Hm Hfull)
    as (pi & Hpi & H0 & H1 & _ & Hent).
  pose proof (match_spots_matching_wf emd matcher X Y r c pi Hfull Hm Hpi) as Hwf.
  fold n1 n2 in H0, H1, Hent, Hfull.
  assert (0 < n1)%nat as Hn1 by (unfold n1; lia).
  assert (0 < n2)%nat as Hn2 by (unfold n2; lia).
  assert (INR n1 <> 0) as Hi1 by (apply not_0_INR; lia).
  set (P := Rmat n1 n2 (coupling_value n1 n2 r c)).
  assert (forall i, (i < n1)%nat ->
            Rsum_upto n2 (fun j => Rentry P i j) = 1 / INR n1) as Hrow.
  { intros i Hi. rewrite <- (coupling_value_row n1 n2 r c i) by done.
    apply Rsum_upto_ext. intros j Hj. unfold P. by rewrite Rentry_Rmat. }
  exists P. split; [|split].
  - rewrite Hpi. f_equal. by apply ndarray_from_entries.
  - destruct (Rmat_shape n1 n2 (coupling_value n1 n2 r c)) as [Hl Hw].
    unfold is_coupling. rewrite !length_replicate.
    split; [done|]. split; [done|]. split; [|split].
    + intros i j Hi Hj. unfold P. rewrite Rentry_Rmat by done.
      by apply coupling_value_nonneg.
    + intros i Hi. rewrite Hrow by done. symmetry. by apply nth_replicate_lt.
    + intros j Hj. rewrite nth_replicate_lt by done.
      rewrite <- (coupling_value_col n1 n2 r c j) by done.
      apply Rsum_upto_ext. intros i Hi. unfold P. by rewrite Rentry_Rmat.
  - rewrite (Rsum_upto_ext n1 _ (fun _ => 1 / INR n1)) by done.
    rewrite Rsum_upto_const. by field.
Qed.

Lemma match_spots_matching_coupling_witness :
  let emd := fun (_ _ : list num) (D : ndarray) => Ok D in
  let matcher := fun _ : csr => Ok ([0; 1]%nat, [0; 1]%nat) in
  let X := of_reals 1 [[0]; [1]] in
  let Y := of_reals 1 [[0]; [1]; [2]] in
  exists P,
    match_spots_using_spatial_heuristic emd matcher X Y false
    = Ok (of_reals (shape0 Y) P) /\
    is_coupling (replicate (shape0 X) (1 / INR (shape0 X)))
      (replicate (shape0 Y) (1 / INR (shape0 Y))) P /\
    Rsum_upto (shape0 X) (fun i => Rsum_upto (shape0 Y) (fun j => Rentry P i j)) = 1.
Proof.
  intros emd matcher X Y.
  apply (match_spots_matching_coupling emd matcher X Y [0; 1]%nat [0; 1]%nat).
  - reflexivity.
  - unfold shape0; simpl; lia.
  - unfold shape0; simpl; lia.
  - intros D _. reflexivity.
  - exact full_matching_2_3.
Defined.

(** ** Rejected inputs *)

(** X4: the function raises [ValueError] for every choice of solver and of
    mode exactly when one of the two inputs has fewer than two points or
    the two coordinate dimensions differ. *)
Theorem match_spots_rejects X Y :
  ((shape0 X < 2)%nat \/ (shape0 Y < 2)%nat \/ shape1 X <> shape1 Y) <->
  forall emd matcher use_ot,
    match_spots_using_spatial_heuristic emd matcher X Y use_ot = Raise ValueError.
Proof.
  split.
  - intros Hbad emd matcher use_ot. unfold match_spots_using_spatial_heuristic.
    destruct (decide (2 <= shape0 X)%nat) as [HX|HX]; last first.
    { unfold norm_and_center_coordinates, shape0 in *.
      destruct (data X) as [|u [|v rest]]; simpl in HX; try lia; done. }
    destruct (norm_returns X HX) as (X' & -> & HX0 & HX1). cbn [mbind result_bind].
    destruct (decide (2 <= shape0 Y)%nat) as [HY|HY]; last first.
    { unfold norm_and_center_coordinates, shape0 in *.
      destruct (data Y) as [|u [|v rest]]; simpl in HY; try lia; done. }
    destruct (norm_returns Y HY) as (Y' & -> & HY0 & HY1). cbn [mbind result_bind].
    unfold distance_matrix. rewrite decide_False; [done|].
    rewrite HX1, HY1. destruct Hbad as [?|[?|?]]; [lia|lia|done].
  - intros Hall.
    destruct (decide (2 <= shape0 X)%nat) as [HX|HX]; [|left; lia].
    destruct (decide (2 <= shape0 Y)%nat) as [HY|HY]; [|right; left; lia].
    destruct (decide (shape1 X = shape1 Y)) as [Hd|Hd]; [|by right; right].
    exfalso. specialize (Hall (fun _ _ D => Ok D) (fun _ => Raise ValueError) true).
    rewrite match_spots_transport_call in Hall.
    destruct (normalized_cost_returns X Y HX HY Hd) as (D & HD & _).
    rewrite HD in Hall. done.
Qed.

(** ** [kl_divergence] on positive rows *)

Lemma kl_divergence_real k (Xr Yr : list (list R)) :
  Forall (fun row => length row = k) Xr ->
  Forall (fun row => length row = k) Yr ->
  Forall (Forall (fun x => 0 < x)) Xr ->
  Forall (Forall (fun y => 0 < y)) Yr ->
  kl_divergence (of_reals k Xr) (of_reals k Yr)
  = Ok (of_reals (length Yr)
          (map (fun xi => map (fun yj => kl_rows (normalize xi) (normalize yj)) Yr) Xr)).
Proof.
  intros HX HY PX PY. unfold kl_divergence.
  rewrite decide_True by done.
  rewrite kl_entropy_terms. unfold einsum_ij_ij_i. fold (dot).
  rewrite !div_colvec_real by done.
  assert (Forall (Forall (fun x => 0 < x)) (map normalize Xr)) as PX'.
  { apply Forall_map. eapply Forall_impl; [exact PX|]. apply normalize_pos. }
  assert (Forall (Forall (fun x => 0 < x)) (map normalize Yr)) as PY'.
  { apply Forall_map. eapply Forall_impl; [exact PY|]. apply normalize_pos. }
  rewrite !map_log_real by done.
  rewrite np_dot_transpose; [|..|done]; last first.
  { apply wf_of_reals. rewrite !Forall_map. eapply Forall_impl; [exact HY|].
    intros row Hrow. simpl. by rewrite length_map, normalize_length. }
  cbn [mbind result_bind]. f_equal.
  unfold sub_col_broadcast. rewrite transpose_row.
  unfold of_reals, shape0. cbn [data shape1].
  rewrite !length_map. f_equal.
  rewrite !map_map.
  clear PX' PY'.
  induction Xr as [|xi Xr IH]; [done|].
  inversion HX; subst. inversion PX; subst.
  cbn [map zip_with]. f_equal; [|by apply IH].
  rewrite !map_map. apply map_ext_in. intros yj Hyj. cbn [nth].
  rewrite <- (map_map ln Real (normalize xi)).
  change (fun u v => num_sum (zip_with num_mul u v)) with dot.
  rewrite !dot_real. cbn [num_sub num_neg num_add]. f_equal.
  rewrite <- kl_rows_split; [lra|].
  rewrite !normalize_length. symmetry.
  rewrite Forall_forall in HY. apply HY. by apply list_elem_of_In.
Qed.


Lemma ln_le_minus_1 x : 0 < x -> ln x <= x - 1.
Proof.
  intros Hx. pose proof (exp_ineq1_le (ln x)) as H. rewrite exp_ln in H by done. lra.
Qed.

Lemma kl_term_lower a b : 0 < a -> 0 < b -> a - b <= a * (ln a - ln b).
Proof.
  intros Ha Hb.
  assert (0 < b / a) as Hba by (by apply Rdiv_lt_0_compat).
  pose proof (ln_le_minus_1 (b / a) Hba) as H.
  unfold Rdiv in H at 1. rewrite ln_mult, ln_Rinv in H by (done || by apply Rinv_0_lt_compat).
  assert (a * (ln b - ln a) <= a * (b / a - 1)) as H'.
  { apply Rmult_le_compat_l; lra. }
  replace (a * (b / a - 1)) with (b - a) in H' by (field; lra). lra.
Qed.

Lemma kl_rows_lower p q :
  length p = length q ->
  Forall (fun x => 0 < x) p -> Forall (fun y => 0 < y) q ->
  Rsum p - Rsum q <= kl_rows p q.
Proof.
  unfold kl_rows, Rsum. intros Hlen Hp. revert q Hlen.
  induction Hp as [|a p Ha Hp IH]; intros [|b q] Hlen Hq; simpl in *; try lia; [lra|].
  apply Forall_cons in Hq as [Hb Hq].
  specialize (IH q ltac:(lia) Hq). pose proof (kl_term_lower a b Ha Hb). lra.
Qed.

Lemma Rsum_normalize row :
  row <> [] -> Forall (fun x => 0 < x) row -> Rsum (normalize row) = 1.
Proof.
  intros Hne Hpos. pose proof (Rsum_pos row Hne Hpos) as Hs.
  unfold normalize. unfold Rdiv.
  replace (map (fun x => x * / Rsum row) row)
    with (map (fun x => / Rsum row * x) row) by (apply map_ext; intros; lra).
  rewrite Rsum_scale. field. lra.
Qed.

Lemma kl_rows_normalize_nonneg p q :
  length p = length q ->
  Forall (fun x => 0 < x) p -> Forall (fun y => 0 < y) q ->
  0 <= kl_rows (normalize p) (normalize q).
Proof.
  intros Hlen Hp Hq. destruct p as [|a p].
  { unfold kl_rows. simpl. lra. }
  destruct q as [|b q]; [done|].
  pose proof (kl_rows_lower (normalize (a :: p)) (normalize (b :: q))) as H.
  rewrite !Rsum_normalize in H by done.
  rewrite !normalize_length in H. specialize (H Hlen).
  assert (1 - 1 <= kl_rows (normalize (a :: p)) (normalize (b :: q))); [|lra].
  apply H; by apply normalize_pos.
Qed.

Lemma kl_rows_self p : kl_rows p p = 0.
Proof.
  unfold kl_rows, Rsum. induction p as [|a p IH]; simpl; [done|]. rewrite IH. lra.
Qed.

Lemma entry_of_reals k rows i j row x :
  rows !! i = Some row -> row !! j = Some x ->
  entry (of_reals k rows) i j = Some (Real x).
Proof.
  intros Hi Hj. unfold entry, of_reals. cbn [data].
  rewrite list_lookup_fmap, Hi. simpl. by rewrite list_lookup_fmap, Hj.
Qed.

(** X5: on strictly positive inputs of equal feature dimension every entry
    of the array [kl_divergence] returns is a real number that is not
    negative (Gibbs' inequality for the row-normalised inputs). *)
Theorem kl_divergence_nonneg k (Xr Yr : list (list R)) :
  Forall (fun row => length row = k) Xr ->
  Forall (fun row => length row = k) Yr ->
  Forall (Forall (fun x => 0 < x)) Xr ->
  Forall (Forall (fun y => 0 < y)) Yr ->
  exists D,
    kl_divergence (of_reals k Xr) (of_reals k Yr) = Ok D /\
    shape0 D = length Xr /\ shape1 D = length Yr /\
    forall i j, (i < length Xr)%nat -> (j < length Yr)%nat ->
      exists x, entry D i j = Some (Real x) /\ 0 <= x.
Proof.
  intros HX HY PX PY. eexists. split; [by apply kl_divergence_real|].
  split; [|split].
  - unfold shape0, of_reals. cbn [data]. by rewrite !length_map.
  - done.
  - intros i j Hi Hj.
    destruct (lookup_lt_is_Some_2 Xr i Hi) as [xi Hxi].
    destruct (lookup_lt_is_Some_2 Yr j Hj) as [yj Hyj].
    exists (kl_rows (normalize xi) (normalize yj)). split.
    + apply entry_of_reals with
        (row := map (fun yj => kl_rows (normalize xi) (normalize yj)) Yr).
      * by rewrite list_lookup_fmap, Hxi.
      * by rewrite list_lookup_fmap, Hyj.
    + rewrite Forall_lookup in HX, HY, PX, PY.
      apply kl_rows_normalize_nonneg; [|by eapply PX|by eapply PY].
      rewrite (HX _ _ Hxi), (HY _ _ Hyj). done.
Qed.

(** X6: the divergence of a strictly positive array from itself has a zero
    diagonal. *)
Theorem kl_divergence_diagonal k (Xr : list (list R)) :
  Forall (fun row => length row = k) Xr ->
  Forall (Forall (fun x => 0 < x)) Xr ->
  exists D,
    kl_divergence (of_reals k Xr) (of_reals k Xr) = Ok D /\
    forall i, (i < length Xr)%nat -> entry D i i = Some (Real 0).
Proof.
  intros HX PX. eexists. split; [by apply kl_divergence_real|].
  intros i Hi. destruct (lookup_lt_is_Some_2 Xr i Hi) as [xi Hxi].
  rewrite <- (kl_rows_self (normalize xi)).
  apply entry_of_reals with
    (row := map (fun yj => kl_rows (normalize xi) (normalize yj)) Xr).
  - by rewrite list_lookup_fmap, Hxi.
  - by rewrite list_lookup_fmap, Hxi.
Qed.

Lemma kl_divergence_nonneg_witness :
  exists D,
    kl_divergence (of_reals 2 [[1; 1]]) (of_reals 2 [[1; 3]]) = Ok D /\
    shape0 D = length [[1; 1]] /\ shape1 D = length [[1; 3]] /\
    forall i j, (i < length [[1; 1]]%R)%nat -> (j < length [[1; 3]]%R)%nat ->
      exists x, entry D i j = Some (Real x) /\ 0 <= x.
Proof.
  apply (kl_divergence_nonneg 2 [[1; 1]] [[1; 3]]); repeat constructor; lra.
Defined.

Lemma kl_divergence_diagonal_witness :
  exists D,
    kl_divergence (of_reals 2 [[1; 3]; [2; 2]]) (of_reals 2 [[1; 3]; [2; 2]]) = Ok D /\
    forall i, (i < length [[1; 3]; [2; 2]]%R)%nat -> entry D i i = Some (Real 0).
Proof.
  apply (kl_divergence_diagonal 2 [[1; 3]; [2; 2]]); repeat constructor; lra.
Defined.

(** ** [kl_divergence] on rescaled and on zero counts *)

Lemma div_colvec_scale k cs rows :
  length cs = length rows -> Forall (fun c => 0 < c) cs ->
  div_colvec (of_reals k (scale_rows cs rows))
    (sum_axis1 (of_reals k (scale_rows cs rows)))
  = div_colvec (of_reals k rows) (sum_axis1 (of_reals k rows)).
Proof.
  intros Hlen Hpos. unfold div_colvec, sum_axis1, of_reals, scale_rows.
  cbn [data shape1]. f_equal.
  revert rows Hlen. induction Hpos as [|c cs Hc Hcs IH]; intros [|row rows] Hlen;
    simpl in *; try lia; [done|].
  f_equal; [|apply IH; lia].
  rewrite !num_sum_real, Rsum_scale, !map_map.
  apply map_ext. intros x. by apply num_div_scale.
Qed.

(** X7: multiplying each row of [X] and each row of [Y] by a positive factor
    of its own changes nothing: [kl_divergence] and [kl_divergence_backend]
    return the same outcome as on [X] and [Y], whatever the entries. *)
Theorem kl_divergence_scale k k' cs ds (Xr Yr : list (list R)) :
  length cs = length Xr -> length ds = length Yr ->
  Forall (fun c => 0 < c) cs -> Forall (fun c => 0 < c) ds ->
  kl_divergence (of_reals k (scale_rows cs Xr)) (of_reals k' (scale_rows ds Yr))
  = kl_divergence (of_reals k Xr) (of_reals k' Yr) /\
  kl_divergence_backend (of_reals k (scale_rows cs Xr)) (of_reals k' (scale_rows ds Yr))
  = kl_divergence_backend (of_reals k Xr) (of_reals k' Yr).
Proof.
  intros HX HY Hc Hd. rewrite !kl_divergence_backend_unfold.
  assert (kl_divergence (of_reals k (scale_rows cs Xr)) (of_reals k' (scale_rows ds Yr))
          = kl_divergence (of_reals k Xr) (of_reals k' Yr)); [|done].
  unfold kl_divergence. cbn [shape1 of_reals].
  destruct (decide (k = k')) as [_|_]; [|done].
  fold (of_reals k (scale_rows cs Xr)) (of_reals k' (scale_rows ds Yr))
       (of_reals k Xr) (of_reals k' Yr).
  by rewrite !div_colvec_scale.
Qed.

Lemma kl_divergence_scale_witness :
  kl_divergence (of_reals 2 (scale_rows [2] [[1; 3]])) (of_reals 2 (scale_rows [5] [[1; 1]]))
  = kl_divergence (of_reals 2 [[1; 3]]) (of_reals 2 [[1; 1]]) /\
  kl_divergence_backend (of_reals 2 (scale_rows [2] [[1; 3]]))
    (of_reals 2 (scale_rows [5] [[1; 1]]))
  = kl_divergence_backend (of_reals 2 [[1; 3]]) (of_reals 2 [[1; 1]]).
Proof.
  apply (kl_divergence_scale 2 2 [2] [5] [[1; 3]] [[1; 1]]);
    try reflexivity; repeat constructor; lra.
Defined.

Lemma num_add_nan_r a : num_add a NaN = NaN.
Proof. by destruct a. Qed.

Lemma num_sum_nan l : NaN ∈ l -> num_sum l = NaN.
Proof.
  unfold num_sum. induction l as [|a l IH]; intros Hin; [by apply elem_of_nil in Hin|].
  apply elem_of_cons in Hin as [<-|Hin]; simpl; [done|].
  rewrite IH by done. apply num_add_nan_r.
Qed.

Lemma zero_times_log s :
  num_mul (num_div (Real 0) s) (num_log (num_div (Real 0) s)) = NaN.
Proof.
  assert (is_zero 0 = true) as H0 by (by apply is_zero_true).
  assert (num_mul (Real 0) (num_log (Real 0)) = NaN) as Hz.
  { unfold num_log. rewrite H0. unfold num_mul, inf_times. by rewrite H0. }
  destruct s as [y| | |]; try done.
  unfold num_div at 1 2. rewrite H0. destruct (is_zero y); [done|].
  replace (0 / y) with 0 by (unfold Rdiv; lra). done.
Qed.

(** X8: a single zero entry in row [i] of [X] makes the whole row [i] of
    the result [nan], for every [Y] of the same feature dimension; no error
    is raised. *)
Theorem kl_divergence_zero_entry X Y i f :
  shape1 X = shape1 Y -> entry X i f = Some (Real 0) ->
  exists D,
    kl_divergence X Y = Ok D /\ kl_divergence_backend X Y = Ok D /\
    forall j, (j < shape0 Y)%nat -> entry D i j = Some NaN.
Proof.
  intros Hk Hent. rewrite kl_divergence_backend_unfold.
  unfold kl_divergence. rewrite decide_True by done.
  unfold np_dot. rewrite decide_True; last first.
  { unfold transpose, shape0. simpl. by rewrite length_map, length_seq. }
  cbn [mbind result_bind]. eexists. split; [done|]. split; [done|].
  intros j Hj.
  unfold entry in Hent. destruct (data X !! i) as [r|] eqn:Hr; [|done].
  simpl in Hent.
  set (s := num_sum r).
  set (rn := map (fun x => num_div x s) r).
  assert (data (div_colvec X (sum_axis1 X)) !! i = Some rn) as Hrn.
  { unfold div_colvec, sum_axis1. cbn [data]. apply lookup_zip_with_Some.
    exists r, s. split; [done|]. split; [done|]. by rewrite list_lookup_fmap, Hr. }
  assert (i < shape0 (div_colvec X (sum_axis1 X)))%nat as Hi.
  { unfold shape0. by eapply lookup_lt_Some. }
  unfold sub_col_broadcast, entry. cbn [data]. rewrite transpose_row.
  erewrite (proj2 (lookup_zip_with_Some _ _ _ _ _)); last first.
  { eexists _, _. split; [done|]. split.
    - rewrite list_lookup_fmap, list_lookup_fmap, lookup_seq_lt by done. done.
    - rewrite list_lookup_fmap, Hrn. done. }
  cbn [mbind option_bind nth]. rewrite !list_lookup_fmap.
  assert (j < length (data (transpose (transpose (map_array num_log
              (div_colvec Y (sum_axis1 Y)))))))%nat as Hj'.
  { unfold transpose at 1. cbn [data]. rewrite length_map, length_seq.
    unfold transpose, map_array, div_colvec, sum_axis1, shape0 in *.
    cbn [shape1 data]. rewrite length_map, length_zip_with, length_map. lia. }
  destruct (lookup_lt_is_Some_2 _ j Hj') as [col Hcol]. rewrite Hcol.
  cbn [fmap option_fmap option_map]. f_equal. rewrite Nat.add_0_l.
  assert (dot (row (div_colvec X (sum_axis1 X)) i)
              (row (map_array num_log (div_colvec X (sum_axis1 X))) i) = NaN) as ->.
  { unfold row, map_array. cbn [data].
    erewrite !nth_lookup_Some; [| by rewrite list_lookup_fmap, Hrn | exact Hrn].
    unfold dot. apply num_sum_nan.
    apply list_elem_of_lookup. exists f.
    apply lookup_zip_with_Some. eexists _, _. split; [|split].
    2:{ unfold rn. rewrite list_lookup_fmap, Hent. done. }
    2:{ unfold rn. rewrite !list_lookup_fmap, Hent. done. }
    simpl. symmetry. apply zero_times_log. }
  done.
Qed.

Lemma kl_divergence_zero_entry_witness :
  exists D,
    kl_divergence (of_reals 2 [[0; 1]]) (of_reals 2 [[1; 1]; [1; 3]]) = Ok D /\
    kl_divergence_backend (of_reals 2 [[0; 1]]) (of_reals 2 [[1; 1]; [1; 3]]) = Ok D /\
    forall j, (j < shape0 (of_reals 2 [[1; 1]; [1; 3]]%R))%nat -> entry D 0 j = Some NaN.
Proof.
  apply (kl_divergence_zero_entry (of_reals 2 [[0; 1]]) (of_reals 2 [[1; 1]; [1; 3]]) 0 0);
    reflexivity.
Defined.

(** ** [intersect] as an operation on lists *)

Lemma elem_of_intersect `{Countable A} (lst1 lst2 : list A) x :
  x ∈ intersect lst1 lst2 <-> x ∈ lst1 /\ x ∈ lst2.
Proof. rewrite intersect_filter, list_elem_of_filter. tauto. Qed.

(** X9: [intersect] reads its second argument as a set: two second
    arguments with the same elements, in whatever order and however often,
    give the same list. *)
Theorem intersect_second_as_set `{Countable A} (lst1 lst2 lst2' : list A) :
  (forall x, x ∈ lst2 <-> x ∈ lst2') ->
  intersect lst1 lst2 = intersect lst1 lst2'.
Proof.
  intros Hsame. rewrite !intersect_filter. apply list_filter_iff. done.
Qed.

(** X10: on lists without repetition [intersect] is symmetric up to the
    order of the result: swapping the arguments permutes it. *)
Theorem intersect_symmetric `{Countable A} (lst1 lst2 : list A) :
  NoDup lst1 -> NoDup lst2 ->
  intersect lst1 lst2 ≡ₚ intersect lst2 lst1.
Proof.
  intros H1 H2. apply NoDup_Permutation.
  - rewrite intersect_filter. by apply NoDup_filter.
  - rewrite intersect_filter. by apply NoDup_filter.
  - intros x. rewrite !elem_of_intersect. tauto.
Qed.

(** X11: a list intersected with itself is unchanged, and intersecting the
    result once more with either argument changes nothing. *)
Theorem intersect_absorb `{Countable A} (lst1 lst2 : list A) :
  intersect lst1 lst1 = lst1 /\
  intersect (intersect lst1 lst2) lst2 = intersect lst1 lst2 /\
  intersect (intersect lst1 lst2) lst1 = intersect lst1 lst2.
Proof.
  assert (forall (l k : list A), (forall x, x ∈ l -> x ∈ k) -> intersect l k = l) as Hall.
  { intros l k Hsub. rewrite intersect_filter.
    induction l as [|a l IH]; [done|].
    rewrite filter_cons_True by (apply Hsub; left).
    f_equal. apply IH. intros x Hx. apply Hsub. by right. }
  split; [by apply Hall|]. split; apply Hall; intros x; rewrite elem_of_intersect; tauto.
Qed.

Lemma intersect_second_as_set_witness :
  intersect [1; 2; 2; 3]%Z [3; 2; 3]%Z = intersect [1; 2; 2; 3]%Z [2; 3]%Z.
Proof.
  apply (intersect_second_as_set [1; 2; 2; 3]%Z [3; 2; 3]%Z [2; 3]%Z).
  intros x. rewrite !elem_of_cons, !elem_of_nil. tauto.
Defined.

Lemma intersect_symmetric_witness :
  intersect [1; 2; 3]%Z [3; 2; 4]%Z ≡ₚ intersect [3; 2; 4]%Z [1; 2; 3]%Z.
Proof.
  apply (intersect_symmetric [1; 2; 3]%Z [3; 2; 4]%Z).
  - repeat (apply NoDup_cons; split; [rewrite ?elem_of_cons, ?elem_of_nil; intros H; repeat destruct H as [H|H]; try done; lia|]). apply NoDup_nil_2.
  - repeat (apply NoDup_cons; split; [rewrite ?elem_of_cons, ?elem_of_nil; intros H; repeat destruct H as [H|H]; try done; lia|]). apply NoDup_nil_2.
Defined.

(** ** The graph handed to the matcher *)

Lemma elem_of_csr_matrix a i j x :
  (i, j, x) ∈ csr_entries (csr_matrix a) <-> entry a i j = Some x /\ stored x = true.
Proof.
  unfold csr_matrix, entry. cbn [csr_entries].
  rewrite list_elem_of_In, in_concat. split.
  - intros (l & Hl & Hx). apply list_elem_of_In in Hl, Hx.
    apply elem_of_lookup_imap in Hl as (i' & row & -> & Hrow).
    apply list_elem_of_omap in Hx as ([j' y] & Hjy & Hsel).
    apply elem_of_lookup_imap in Hjy as (j'' & y' & [= -> ->] & Hy).
    destruct (stored y') eqn:Hst; [|done]. injection Hsel as -> -> ->.
    rewrite Hrow. simpl. done.
  - intros [Hent Hst]. destruct (data a !! i) as [row|] eqn:Hrow; [|done].
    simpl in Hent.
    exists (omap (fun '(j, x) => if stored x then Some (i, j, x) else None) (imap pair row)).
    split; apply list_elem_of_In.
    + apply elem_of_lookup_imap. by exists i, row.
    + apply list_elem_of_omap. exists (j, x). split; [|by rewrite Hst].
      apply elem_of_lookup_imap. by exists j, x.
Qed.

Lemma csr_normalized_distances d (Xr Yr : list (list R)) i j x :
  Forall (fun row => length row = d) Xr -> Forall (fun row => length row = d) Yr ->
  (i, j, x) ∈ csr_entries (csr_matrix (of_reals (length Yr) (normalized_distances d Xr Yr)))
  <-> exists u v, normalized d Xr !! i = Some u /\ normalized d Yr !! j = Some v /\
                  u <> v /\ x = Real (Rdist u v).
Proof.
  intros HwX HwY. rewrite elem_of_csr_matrix.
  unfold entry, of_reals, normalized_distances. cbn [data].
  rewrite !list_lookup_fmap.
  pose proof (normalized_wf d Xr HwX) as HX'. pose proof (normalized_wf d Yr HwY) as HY'.
  rewrite Forall_lookup in HX', HY'.
  destruct (normalized d Xr !! i) as [u|] eqn:Hu; simpl; last first.
  { split; [by intros [? ?]|by intros (? & ? & ? & _)]. }
  rewrite !list_lookup_fmap.
  destruct (normalized d Yr !! j) as [v|] eqn:Hv; simpl; last first.
  { split; [by intros [? ?]|by intros (? & ? & _ & ? & _)]. }
  assert (length u = length v) as Hlen by (rewrite (HX' _ _ Hu), (HY' _ _ Hv); done).
  split.
  - intros [[= <-] Hst]. exists u, v. split; [done|]. split; [done|]. split; [|done].
    intros ->. rewrite Rdist_self in Hst. simpl in Hst.
    by rewrite is_zero_true in Hst.
  - intros (u' & v' & [= <-] & [= <-] & Hne & ->). split; [done|].
    simpl. pose proof (Rdist_pos u v Hlen Hne). unfold is_zero.
    destruct (Req_dec_T (Rdist u v) 0); [lra|done].
Qed.

(** X12: the sparse matrix built from the cost matrix has an edge [(i, j)]
    exactly for the pairs whose normalised points differ, weighted by their
    distance: a pair of coinciding points is no edge of the graph the
    matcher sees. *)
Theorem cost_graph_edges d (Xr Yr : list (list R)) :
  (2 <= length Xr)%nat -> (2 <= length Yr)%nat ->
  Forall (fun row => length row = d) Xr -> Forall (fun row => length row = d) Yr ->
  NoDup Xr -> NoDup Yr ->
  exists D,
    normalized_cost (of_reals d Xr) (of_reals d Yr) = Ok D /\
    forall i j x,
      (i, j, x) ∈ csr_entries (csr_matrix D) <->
      exists u v, normalized d Xr !! i = Some u /\ normalized d Yr !! j = Some v /\
                  u <> v /\ x = Real (Rdist u v).
Proof.
  intros HnX HnY HwX HwY HdX HdY. eexists. split; [by apply normalized_cost_real|].
  intros i j x. by apply csr_normalized_distances.
Qed.

Lemma Rdist_sym u v : Rdist u v = Rdist v u.
Proof.
  unfold Rdist. f_equal. revert v.
  induction u as [|x u IH]; intros [|y v]; simpl; try done.
  fold (Rsum (zip_with (fun x y => (x - y) * (x - y)) u v)).
  fold (Rsum (zip_with (fun x y => (x - y) * (x - y)) v u)).
  rewrite (IH v). lra.
Qed.

(** X13: when a point set is matched against itself the graph has no edge
    from a point to itself, and an edge of weight at least one between any
    two different points. *)
Theorem self_cost_graph d (Xr : list (list R)) :
  (2 <= length Xr)%nat ->
  Forall (fun row => length row = d) Xr -> NoDup Xr ->
  exists D,
    normalized_cost (of_reals d Xr) (of_reals d Xr) = Ok D /\
    (forall i x, (i, i, x) ∉ csr_entries (csr_matrix D)) /\
    (forall i j, (i < length Xr)%nat -> (j < length Xr)%nat -> i <> j ->
       exists w, (i, j, Real w) ∈ csr_entries (csr_matrix D) /\ 1 <= w).
Proof.
  intros Hn Hwf Hnd. eexists. split; [by apply normalized_cost_real|]. split.
  - intros i x Hin. apply csr_normalized_distances in Hin; [|done..].
    destruct Hin as (u & v & Hu & Hv & Hne & _). congruence.
  - intros i j Hi Hj Hij.
    pose proof (min_pairwise_distance_normalized d Xr Hn Hwf Hnd) as Hone.
    assert (2 <= length (normalized d Xr))%nat as Hn' by (by rewrite normalized_length).
    destruct (min_pairwise_distance_least (normalized d Xr) Hn') as [_ Hleast].
    rewrite Hone in Hleast.
    destruct (lookup_lt_is_Some_2 (normalized d Xr) i) as [u Hu];
      [by rewrite normalized_length|].
    destruct (lookup_lt_is_Some_2 (normalized d Xr) j) as [v Hv];
      [by rewrite normalized_length|].
    assert (1 <= Rdist u v) as Hge.
    { destruct (decide (i < j)%nat) as [Hlt|Hge].
      - by apply (Hleast i j).
      - rewrite Rdist_sym. apply (Hleast j i); [lia|done..]. }
    exists (Rdist u v). split; [|done].
    apply csr_normalized_distances; [done..|].
    exists u, v. split; [done|]. split; [done|]. split; [|done].
    intros ->. rewrite Rdist_self in Hge. lra.
Qed.

Lemma cost_graph_edges_witness :
  exists D,
    normalized_cost (of_reals 1 [[0]; [1]]) (of_reals 1 [[0]; [3]]) = Ok D /\
    forall i j x,
      (i, j, x) ∈ csr_entries (csr_matrix D) <->
      exists u v, normalized 1 [[0]; [1]] !! i = Some u /\
                  normalized 1 [[0]; [3]] !! j = Some v /\
                  u <> v /\ x = Real (Rdist u v).
Proof.
  apply (cost_graph_edges 1 [[0]; [1]] [[0]; [3]]).
  - simpl. lia.
  - simpl. lia.
  - repeat constructor.
  - repeat constructor.
  - apply NoDup_cons. split; [|apply NoDup_singleton].
    rewrite list_elem_of_singleton. intros [= H]. lra.
  - apply NoDup_cons. split; [|apply NoDup_singleton].
    rewrite list_elem_of_singleton. intros [= H]. lra.
Defined.

Lemma self_cost_graph_witness :
  exists D,
    normalized_cost (of_reals 1 [[0]; [2]]) (of_reals 1 [[0]; [2]]) = Ok D /\
    (forall i x, (i, i, x) ∉ csr_entries (csr_matrix D)) /\
    (forall i j, (i < length [[0]; [2]]%R)%nat -> (j < length [[0]; [2]]%R)%nat -> i <> j ->
       exists w, (i, j, Real w) ∈ csr_entries (csr_matrix D) /\ 1 <= w).
Proof.
  apply (self_cost_graph 1 [[0]; [2]]).
  - simpl. lia.
  - repeat constructor.
  - apply NoDup_cons. split; [|apply NoDup_singleton].
    rewrite list_elem_of_singleton. intros [= H]. lra.
Defined.

(** ** [to_dense_array] *)

Lemma value_at_row_entries i j i' o row :
  omap (value_at i j) (row_entries i' o row)
  = if decide (i' = i /\ o <= j)%nat then
      match row !! (j - o)%nat with
      | Some x => if stored x then [x] else []
      | None => []
      end
    else [].
Proof.
  unfold row_entries. revert o. induction row as [|x row IH]; intros o.
  { simpl. by destruct (decide _). }
  cbn [imap omap list_omap]. 
  rewrite (imap_ext _ (fun k x => ((S o + k)%nat, x))); last first.
  { intros k y _. simpl. f_equal. lia. }
  replace (o + 0)%nat with o by lia.
  assert (forall (h : option (nat * nat * num)) l,
            omap (value_at i j) (match h with Some y => y :: l | None => l end)
            = match h with Some y => omap (value_at i j) [y] | None => [] end
              ++ omap (value_at i j) l) as Hh.
  { intros [y|] l; [|done]. by rewrite (omap_app _ [y] l). }
  change (omap (value_at i j) (match (if stored x then Some (i', o, x) else None) with
                             | Some y => y :: omap (fun '(j0, x0) => if stored x0 then Some (i', j0, x0) else None) (imap (fun k x0 => ((S o + k)%nat, x0)) row)
                             | None => omap (fun '(j0, x0) => if stored x0 then Some (i', j0, x0) else None) (imap (fun k x0 => ((S o + k)%nat, x0)) row)
                             end) = if decide (i' = i /\ (o <= j)%nat) then
      match (x :: row) !! (j - o)%nat with
      | Some x => if stored x then [x] else []
      | None => []
      end
    else []).
  rewrite Hh, IH.
  destruct (decide (o = j)) as [->|Hoj].
  - rewrite Nat.sub_diag. cbn [lookup list_lookup].
    rewrite (decide_False (P := (i' = i /\ (S j <= j)%nat))) by lia.
    rewrite app_nil_r.
    destruct (stored x); simpl; repeat case_decide; try done; lia.
  - destruct (decide (o < j)%nat) as [Hlt|Hge].
    + replace (j - o)%nat with (S (j - S o)) by lia. cbn [lookup list_lookup].
      destruct (stored x); simpl; repeat case_decide; try done; lia.
    + destruct (stored x); simpl; repeat case_decide; try done; lia.
Qed.

Lemma value_at_csr_rows i j o rows :
  omap (value_at i j) (concat (imap (fun i' row => row_entries (o + i') 0 row) rows))
  = if decide (o <= i)%nat then
      match rows !! (i - o)%nat with
      | Some row =>
          match row !! j with
          | Some x => if stored x then [x] else []
          | None => []
          end
      | None => []
      end
    else [].
Proof.
  revert o. induction rows as [|row rows IH]; intros o.
  { simpl. by destruct (decide _). }
  cbn [imap concat].
  rewrite (imap_ext _ (fun i' row => row_entries (S o + i') 0 row)); last first.
  { intros k y _. simpl. f_equal. lia. }
  rewrite omap_app, IH, value_at_row_entries.
  replace (o + 0)%nat with o by lia. rewrite Nat.sub_0_r.
  destruct (decide (o = i)) as [->|Hoi].
  - rewrite Nat.sub_diag. cbn [lookup list_lookup].
    destruct (decide (i = i /\ (0 <= j)%nat)) as [_|Hn]; [|lia].
    destruct (decide (S i <= i)%nat) as [Hn|_]; [lia|].
    destruct (decide (i <= i)%nat) as [_|Hn]; [|lia].
    by rewrite app_nil_r.
  - destruct (decide (o < i)%nat) as [Hlt|Hge].
    + replace (i - o)%nat with (S (i - S o)) by lia. cbn [lookup list_lookup].
      repeat case_decide; try done; lia.
    + repeat case_decide; try done; lia.
Qed.

Lemma value_at_csr_matrix a i j :
  omap (value_at i j) (csr_entries (csr_matrix a))
  = match entry a i j with
    | Some x => if stored x then [x] else []
    | None => []
    end.
Proof.
  unfold csr_matrix, entry. cbn [csr_entries].
  change (omap (value_at i j)
            (concat (imap (fun i' row => row_entries (0 + i') 0 row) (data a)))
          = match data a !! i ≫= (fun row => row !! j) with
            | Some x => if stored x then [x] else []
            | None => []
            end).
  rewrite value_at_csr_rows, decide_True by lia. rewrite Nat.sub_0_r.
  by destruct (data a !! i).
Qed.

Lemma num_sum_stored x : num_sum (if stored x then [x] else []) = x.
Proof.
  destruct x as [r| | |]; simpl; try done.
  unfold is_zero. destruct (Req_dec_T r 0) as [->|_]; simpl; [done|].
  f_equal. lra.
Qed.

(** X14: [to_dense_array] undoes [csr_matrix]: the sparse matrix of a dense
    array, made dense again, is that array, its zeros, infinities and [nan]
    included. *)
Theorem to_dense_array_csr_matrix a :
  wf a -> to_dense_array (Sparse (csr_matrix a)) = a.
Proof.
  intros Hwf. destruct a as [k rows]. unfold wf in Hwf. cbn [shape1 data] in Hwf.
  unfold to_dense_array, toarray. cbn [csr_shape csr_matrix fst snd shape1].
  unfold shape0. cbn [data]. f_equal.
  apply list_eq. intros i. rewrite list_lookup_fmap.
  destruct (decide (i < length rows)%nat) as [Hi|Hi]; last first.
  { rewrite lookup_seq_ge by lia. by rewrite lookup_ge_None_2 by lia. }
  rewrite lookup_seq_lt by done. simpl.
  destruct (lookup_lt_is_Some_2 rows i Hi) as [row Hrow]. rewrite Hrow. f_equal.
  assert (length row = k) as Hlen by (rewrite Forall_lookup in Hwf; by eapply Hwf).
  apply list_eq. intros j. rewrite list_lookup_fmap.
  destruct (decide (j < k)%nat) as [Hj|Hj]; last first.
  { rewrite lookup_seq_ge by lia. by rewrite lookup_ge_None_2 by lia. }
  rewrite lookup_seq_lt by done. simpl.
  destruct (lookup_lt_is_Some_2 row j ltac:(lia)) as [x Hx]. rewrite Hx. f_equal.
  change (num_sum (omap (value_at i j) (csr_entries (csr_matrix (NdArray k rows)))) = x).
  rewrite value_at_csr_matrix. unfold entry. cbn [data]. rewrite Hrow. simpl. rewrite Hx.
  apply num_sum_stored.
Qed.

Lemma to_dense_array_csr_matrix_witness :
  to_dense_array (Sparse (csr_matrix (of_reals 2 [[0; 1]; [2; 0]])))
  = of_reals 2 [[0; 1]; [2; 0]].
Proof.
  apply (to_dense_array_csr_matrix (of_reals 2 [[0; 1]; [2; 0]])).
  repeat constructor.
Defined.
